(** * normalizr/normalizr.py: the [Normalizr] class, embedded and verified

    The development follows the module top to bottom.

    - Python text is a list of Unicode code points ([list N]); method names
      and option names are identifiers and are kept as [string].
    - The instance attributes [__language], [__stop_words] and
      [__characters_regexes] are the fields of the record [Normalizr]; a
      method is a function in the monad [M], which threads the instance and
      carries the exception a call ends with.  The instance is returned with
      an exception too: what a call changed before it failed stays changed.
    - What the module imports (unicodedata, re, str.lower, the patterns of
      normalizr.regex, the files under data/) is the interface [Runtime];
      every definition and theorem is parametric in it, and [Sample] gives
      one small instance on which the definitions are evaluated.
    - Where Python 2 and Python 3 differ, the embedding follows Python 3,
      where [str] is Unicode text. *)

From stdpp Require Import gmap strings list sorting.

Local Open Scope N_scope.

(** ** Text *)

Abbreviation char := N.
Abbreviation str := (list N).

(** A literal: the code points of an ASCII string. *)
Definition u (s : string) : str := Ascii.N_of_ascii <$> String.list_ascii_of_string s.

(** The characters [str.split()] and [str.strip()] treat as whitespace
    (CPython's Py_UNICODE_ISSPACE). *)
Definition isspace (c : char) : bool :=
  ((9 <=? c) && (c <=? 13)) || ((28 <=? c) && (c <=? 32))
  || (c =? 133) || (c =? 160) || (c =? 5760)
  || ((8192 <=? c) && (c <=? 8202))
  || (c =? 8232) || (c =? 8233) || (c =? 8239) || (c =? 8287) || (c =? 12288).

(** The list a scan leaves for the word read so far: nothing when no
    character was read. *)
Definition flush (word : str) : list str :=
  match word with [] => [] | _ => [word] end.

(** [text.split()]: the maximal runs of non-whitespace characters.  [word]
    is the run being read. *)
Fixpoint split_from (word : str) (s : str) : list str :=
  match s with
  | [] => flush word
  | c :: s' =>
      if isspace c then flush word ++ split_from [] s'
      else split_from (word ++ [c]) s'
  end.

Definition split (s : str) : list str := split_from [] s.

(** [text.split(sep)] for a separator of one character: every occurrence
    cuts, empty fields are kept, and the result is never empty. *)
Fixpoint split_at_from (sep : char) (field : str) (s : str) : list str :=
  match s with
  | [] => [field]
  | c :: s' =>
      if c =? sep then field :: split_at_from sep [] s'
      else split_at_from sep (field ++ [c]) s'
  end.

Definition split_at (sep : char) (s : str) : list str := split_at_from sep [] s.

(** [sep.join(words)]. *)
Fixpoint join (sep : str) (words : list str) : str :=
  match words with
  | [] => []
  | word :: rest =>
      match rest with
      | [] => word
      | _ :: _ => word ++ sep ++ join sep rest
      end
  end.

Fixpoint lstrip (s : str) : str :=
  match s with
  | [] => []
  | c :: s' => if isspace c then lstrip s' else s
  end.

(** [word.strip()]. *)
Definition strip (s : str) : str := reverse (lstrip (reverse (lstrip s))).

(** [sorted(characters)] joined back into a string: the characters in
    increasing code point order, repetitions kept. *)
Definition sorted (characters : str) : str := merge_sort N.le characters.

(** [string.punctuation]: the 32 ASCII punctuation characters, from [!]
    (33) to [~] (126). *)
Definition string_punctuation : str :=
  [33; 34; 35; 36; 37; 38; 39; 40; 41; 42; 43; 44; 45; 46; 47;
   58; 59; 60; 61; 62; 63; 64;
   91; 92; 93; 94; 95; 96;
   123; 124; 125; 126].

(** ** Exceptions and the imported libraries *)

(** The exceptions the module's calls end with.  [AttributeError] is what
    [getattr] raises for a name the instance does not have, [TypeError] what
    a call raises for a keyword the method does not declare or for a missing
    argument, [IOError] what [codecs.open] raises for a file that does not
    exist, [ValueError] what [unicodedata.normalize] raises for an unknown
    form, and [re_error] what [re] raises for a replacement template it
    cannot parse. *)
Inductive exn := AttributeError | TypeError | IOError | ValueError | re_error.

Inductive result (A : Type) :=
  | Return (a : A)
  | Raise (e : exn).
Arguments Return {A} a.
Arguments Raise {A} e.

(** The normalization forms of [unicodedata.normalize]. *)
Inductive form := NFC | NFKC | NFD | NFKD.

Definition parse_form (name : str) : option form :=
  if decide (name = u "NFC") then Some NFC
  else if decide (name = u "NFKC") then Some NFKC
  else if decide (name = u "NFD") then Some NFD
  else if decide (name = u "NFKD") then Some NFKD
  else None.

(** What the module imports.  [data_stop language] is the file
    [data/stop-<language>] of the package as the list of its lines, [None]
    when there is no such file.  [re_sub pattern repl s] is
    [re.sub(pattern, repl, s)], also for a compiled pattern, which is
    identified with its source.  A language is a name the file system can
    look up: one that holds the character NUL, for which [codecs.open]
    raises before it looks, is none.  [object_attributes] are the names an
    instance of a class has without the class defining them (those of
    [object], and [__dict__], [__doc__], [__module__] and the like): which
    they are depends on the version of the interpreter. *)
Class Runtime := {
  unicodedata_category : char → string;
  unicodedata_normalize : form → str → str;
  str_lower : str → str;
  re_escape : str → str;
  re_sub : str → str → str → result str;
  EMAIL_REGEX : str;
  URL_REGEX : str;
  EMOJI_REGEX : str;
  data_stop : str → option (list str);
  object_attributes : list string
}.

(** ** The instance *)

(** A compiled pattern object: its source ([Pattern.pattern] in Python) and
    its identity.  Two objects are the same object when they have the same
    identity.  The memo [re] keeps of the patterns it compiled, from which
    [re.compile] may hand back the object of a source compiled before, is
    not modelled: objects of different sources are different in any case. *)
Record Pattern := {
  pattern : str;
  object_id : nat
}.

(** The attributes of an instance.  [allocated] counts the pattern objects
    the instance has had compiled; [re_compile] gives the next one this
    number as its identity. *)
Record Normalizr := {
  __language : str;
  __stop_words : gset str;
  __characters_regexes : gmap str Pattern;
  allocated : nat
}.

Definition DEFAULT_NORMALIZATIONS : list string :=
  ["remove_extra_whitespaces"; "replace_punctuation"; "replace_symbols";
   "remove_stop_words"]%string.

(** [__punctuation = set(string.punctuation)] *)
Definition __punctuation : gset char := list_to_set string_punctuation.

(** ** The monad of method calls *)

Definition M (A : Type) : Type := Normalizr → result A * Normalizr.

Definition ret {A} (a : A) : M A := λ self, (Return a, self).

Definition raise {A} (e : exn) : M A := λ self, (Raise e, self).

Definition lift {A} (r : result A) : M A := λ self, (r, self).

Definition bind {A B} (m : M A) (k : A → M B) : M B := λ self,
  match m self with
  | (Return a, self') => k a self'
  | (Raise e, self') => (Raise e, self')
  end.

Definition get : M Normalizr := λ self, (Return self, self).

Notation "x <- m ;; k" := (bind m (λ x, k))
  (at level 100, m at next level, right associativity).

(** [for x in xs: body(x)] *)
Fixpoint for_each {A} (xs : list A) (body : A → M unit) : M unit :=
  match xs with
  | [] => ret ()
  | x :: xs' => _ <- body x ;; for_each xs' body
  end.

(** [self.__stop_words.add(word)] *)
Definition add_stop_word (word : str) : M unit := λ self,
  (Return (),
   {| __language := __language self;
      __stop_words := __stop_words self ∪ {[ word ]};
      __characters_regexes := __characters_regexes self;
      allocated := allocated self |}).

(** [re.compile(source)]: a new pattern object. *)
Definition re_compile (source : str) : M Pattern := λ self,
  (Return {| pattern := source; object_id := allocated self |},
   {| __language := __language self;
      __stop_words := __stop_words self;
      __characters_regexes := __characters_regexes self;
      allocated := S (allocated self) |}).

(** [self.__characters_regexes[characters] = characters_regex] *)
Definition store_regex (characters : str) (characters_regex : Pattern) : M unit :=
  λ self,
  (Return (),
   {| __language := __language self;
      __stop_words := __stop_words self;
      __characters_regexes := <[characters := characters_regex]> (__characters_regexes self);
      allocated := allocated self |}).

(** ** The methods *)

Section Normalizr.
Context `{Runtime}.

Definition _load_stop_words (language : str) : M unit :=
  match data_stop language with
  | None => raise IOError
  | Some file =>
      for_each file (λ line,
        match split_at 124 line with
        | [] => ret ()
        | field :: _ => for_each (split field) (λ word, add_stop_word (strip word))
        end)
  end.

(** The constructor, for the default [logger_level].  The logger is not
    modelled: its set-up comes before anything is loaded, writes no
    attribute the methods read, and raises only for a level that is no
    level of [logging].  When the load fails the exception leaves the
    constructor and there is no instance. *)
Definition __init__ (language : str) (lazy_load : bool) : result Normalizr :=
  let self := {| __language := language; __stop_words := ∅;
                 __characters_regexes := ∅; allocated := 0 |} in
  if negb lazy_load then
    match _load_stop_words language self with
    | (Return _, self') => Return self'
    | (Raise e, _) => Raise e
    end
  else Return self.

(** The body of [__init__] run on an instance that exists already, as
    [getattr(self, '__init__')] runs it: the attributes are assigned anew,
    and then the stop words are loaded unless [lazy_load].  The patterns
    compiled before are objects still, and keep their identities. *)
Definition init_body (language : str) (lazy_load : bool) : M unit := λ self,
  let self := {| __language := language; __stop_words := ∅;
                 __characters_regexes := ∅; allocated := allocated self |} in
  if negb lazy_load then _load_stop_words language self else (Return (), self).

Definition remove_accent_marks (text : str) (excluded : gset char) : str :=
  unicodedata_normalize NFKC
    (filter (λ c, unicodedata_category c ≠ "Mn"%string ∨ c ∈ excluded)
            (unicodedata_normalize NFKD text)).

Definition remove_extra_whitespaces (text : str) : str :=
  join (u " ") (split text).

Definition remove_stop_words (text : str) (ignore_case : bool) : M str :=
  self <- get ;;
  _ <- (if decide (__stop_words self = ∅)
        then _load_stop_words (__language self) else ret ()) ;;
  self <- get ;;
  ret (join (u " ")
         (filter (λ word, (if ignore_case then str_lower word else word)
                          ∉ __stop_words self)
                 (split_at 32 text))).

Definition replace_emails (text : str) (replacement : str) : result str :=
  re_sub EMAIL_REGEX replacement text.

Definition replace_emojis (text : str) (replacement : str) : result str :=
  re_sub EMOJI_REGEX replacement text.

(** Lines 182 to 187 of [replace_characters]: the pattern object for
    [characters], from the cache when the sorted string is a key of it,
    compiled and stored under that key otherwise. *)
Definition characters_regex (characters : str) : M Pattern :=
  let characters := sorted characters in
  self <- get ;;
  match __characters_regexes self !! characters with
  | Some characters_regex => ret characters_regex
  | None =>
      characters_regex <- re_compile (u "[" ++ re_escape characters ++ u "]") ;;
      _ <- store_regex characters characters_regex ;;
      ret characters_regex
  end.

Definition replace_characters (text : str) (characters : str) (replacement : str)
  : M str :=
  match characters with
  | [] => ret text
  | _ :: _ =>
      characters_regex <- characters_regex characters ;;
      lift (re_sub (pattern characters_regex) replacement text)
  end.

(** [text.replace('-', replacement)] *)
Definition replace_hyphens (text : str) (replacement : str) : str :=
  flat_map (λ c, if c =? 45 then replacement else [c]) text.

(** [excluded] is [None] for the default, the set otherwise (a value that
    is not a set has been turned into one by [set(excluded)]).  The order in
    which the set difference is joined does not matter: [replace_characters]
    sorts. *)
Definition replace_punctuation (text : str) (excluded : option (gset char))
    (replacement : str) : M str :=
  let excluded := match excluded with None => ∅ | Some excluded => excluded end in
  let punct := elements (__punctuation ∖ excluded) in
  replace_characters text punct replacement.

Definition categories : list string := ["Mn"; "Sc"; "Sk"; "Sm"; "So"]%string.

(** [unicodedata.normalize(format, text)].  A name that is no form raises
    ValueError, except with the empty text, which is returned before the
    form is looked at. *)
Definition normalize_text (format : str) (text : str) : result str :=
  match parse_form format with
  | Some format => Return (unicodedata_normalize format text)
  | None => match text with [] => Return [] | _ :: _ => Raise ValueError end
  end.

Definition replace_symbols (text : str) (format : str) (excluded : gset char)
    (replacement : str) : result str :=
  match normalize_text format text with
  | Raise e => Raise e
  | Return normalized =>
      Return (flat_map
                (λ c, if decide (unicodedata_category c ∉ categories ∨ c ∈ excluded)
                      then [c] else replacement)
                normalized)
  end.

Definition replace_urls (text : str) (replacement : str) : result str :=
  re_sub URL_REGEX replacement text.

(** *** The dispatcher *)

(** The values an option of a step can hold. *)
Inductive value :=
  | VNone
  | VBool (b : bool)
  | VStr (s : str)
  | VSet (s : gset char).

(** An entry of the list [normalize] receives: a name, or a pair of a name
    and the dict of its keyword arguments. *)
Inductive normalization :=
  | Name (name : string)
  | Pair (name : string) (kwargs : gmap string value).

(** The ten transformations of the class. *)
Inductive method :=
  | RemoveAccentMarks | RemoveExtraWhitespaces | RemoveStopWords
  | ReplaceEmails | ReplaceEmojis | ReplaceCharacters | ReplaceHyphens
  | ReplacePunctuation | ReplaceSymbols | ReplaceUrls.

(** The other methods of the class. *)
Inductive helper :=
  | Init | GetLogger | LoadStopWords | ParseNormalizations | Normalize.

(** What [getattr(self, name)] finds: a transformation, another method of
    the class, an attribute of the class or of the instance that holds data
    and cannot be called, or an attribute the instance has from [object]. *)
Inductive attribute :=
  | Transformation (m : method)
  | Helper (h : helper)
  | Data
  | Inherited.

Definition transformations : list (string * method) :=
  [("remove_accent_marks", RemoveAccentMarks);
   ("remove_extra_whitespaces", RemoveExtraWhitespaces);
   ("remove_stop_words", RemoveStopWords);
   ("replace_emails", ReplaceEmails);
   ("replace_emojis", ReplaceEmojis);
   ("replace_characters", ReplaceCharacters);
   ("replace_hyphens", ReplaceHyphens);
   ("replace_punctuation", ReplacePunctuation);
   ("replace_symbols", ReplaceSymbols);
   ("replace_urls", ReplaceUrls)]%string.

Definition helpers : list (string * helper) :=
  [("__init__", Init);
   ("_get_logger", GetLogger);
   ("_load_stop_words", LoadStopWords);
   ("_parse_normalizations", ParseNormalizations);
   ("normalize", Normalize)]%string.

(** The attributes that hold data, under the names the class body mangles
    them to: the language, the logger, the set of stop words, the cache and
    the set of punctuation characters. *)
Definition data_attributes : list string :=
  ["_Normalizr__language"; "_Normalizr__logger"; "_Normalizr__stop_words";
   "_Normalizr__characters_regexes"; "_Normalizr__punctuation"]%string.

(** [getattr(self, name)], [None] when it raises AttributeError: what the
    class defines comes first, then what the instance has from [object]. *)
Definition getattr (name : string) : option attribute :=
  match list_find (λ entry, entry.1 = name) transformations with
  | Some (_, (_, m)) => Some (Transformation m)
  | None =>
      match list_find (λ entry, entry.1 = name) helpers with
      | Some (_, (_, h)) => Some (Helper h)
      | None =>
          if bool_decide (name ∈ data_attributes) then Some Data
          else if bool_decide (name ∈ object_attributes) then Some Inherited
          else None
      end
  end.

(** The keyword parameters of each method, after [self] and [text]. *)
Definition parameters (m : method) : list string :=
  match m with
  | RemoveAccentMarks => ["excluded"]
  | RemoveExtraWhitespaces => []
  | RemoveStopWords => ["ignore_case"]
  | ReplaceEmails | ReplaceEmojis | ReplaceHyphens | ReplaceUrls => ["replacement"]
  | ReplaceCharacters => ["characters"; "replacement"]
  | ReplacePunctuation => ["excluded"; "replacement"]
  | ReplaceSymbols => ["format"; "excluded"; "replacement"]
  end%string.

(** Truth of a value, as [if] and [not] take it. *)
Definition truth (v : value) : bool :=
  match v with
  | VNone => false
  | VBool b => b
  | VStr s => match s with [] => false | _ => true end
  | VSet s => negb (bool_decide (s = ∅))
  end.

(** An argument read at its documented type; [None] when the dict holds a
    value of another type. *)
Definition str_argument (kwargs : gmap string value) (name : string)
    (default : str) : option str :=
  match kwargs !! name with
  | None => Some default
  | Some (VStr s) => Some s
  | Some _ => None
  end.

(** A set of characters.  A string stands for the set of its characters:
    [c in excluded] and [set(excluded)] read it that way, and so does
    [sorted(characters)] up to the order, which is then fixed by the sort. *)
Definition set_argument (kwargs : gmap string value) (name : string)
    : option (option (gset char)) :=
  match kwargs !! name with
  | None => Some None
  | Some (VSet s) => Some (Some s)
  | Some (VStr s) => Some (Some (list_to_set s))
  | Some _ => None
  end.

(** [getattr(self, normalization)(text, **kwargs)] for a transformation:
    the call as a function of [text].  A keyword the method does not
    declare, and a missing [characters], raise TypeError before the body
    runs.  The result is [None] when an option holds a value of another
    type than the documented one: such calls are outside the embedding. *)
Definition call (m : method) (kwargs : gmap string value)
    : option (str → M str) :=
  if negb (bool_decide (map_Forall (λ name _, name ∈ parameters m) kwargs))
  then Some (λ _, raise TypeError)
  else
    match m with
    | RemoveAccentMarks =>
        excluded ← set_argument kwargs "excluded";
        Some (λ text, ret (remove_accent_marks text (default ∅ excluded)))
    | RemoveExtraWhitespaces =>
        Some (λ text, ret (remove_extra_whitespaces text))
    | RemoveStopWords =>
        let ignore_case := from_option truth true (kwargs !! "ignore_case") in
        Some (λ text, remove_stop_words text ignore_case)
    | ReplaceEmails =>
        replacement ← str_argument kwargs "replacement" [];
        Some (λ text, lift (replace_emails text replacement))
    | ReplaceEmojis =>
        replacement ← str_argument kwargs "replacement" [];
        Some (λ text, lift (replace_emojis text replacement))
    | ReplaceCharacters =>
        match kwargs !! "characters" with
        | None => Some (λ _, raise TypeError)
        | Some (VStr characters) =>
            replacement ← str_argument kwargs "replacement" [];
            Some (λ text, replace_characters text characters replacement)
        | Some (VSet characters) =>
            replacement ← str_argument kwargs "replacement" [];
            Some (λ text, replace_characters text (elements characters) replacement)
        | Some _ => None
        end
    | ReplaceHyphens =>
        replacement ← str_argument kwargs "replacement" (u " ");
        Some (λ text, ret (replace_hyphens text replacement))
    | ReplacePunctuation =>
        replacement ← str_argument kwargs "replacement" [];
        match kwargs !! "excluded" with
        | None | Some VNone =>
            Some (λ text, replace_punctuation text None replacement)
        | Some (VSet excluded) =>
            Some (λ text, replace_punctuation text (Some excluded) replacement)
        | Some (VStr excluded) =>
            Some (λ text, replace_punctuation text (Some (list_to_set excluded)) replacement)
        | Some (VBool _) => None
        end
    | ReplaceSymbols =>
        format ← str_argument kwargs "format" (u "NFKD");
        excluded ← set_argument kwargs "excluded";
        replacement ← str_argument kwargs "replacement" [];
        Some (λ text, lift (replace_symbols text format (default ∅ excluded) replacement))
    | ReplaceUrls =>
        replacement ← str_argument kwargs "replacement" [];
        Some (λ text, lift (replace_urls text replacement))
    end%string.

Definition _parse_normalizations (normalizations : list normalization)
    : list (string * gmap string value) :=
  (λ normalization,
     match normalization with
     | Name name => (name, ∅)
     | Pair name kwargs => (name, kwargs)
     end) <$> normalizations.

(** The name of a step. *)
Definition name_of (step : normalization) : string :=
  match step with Name name | Pair name _ => name end.

(** The keyword parameters of the other methods, after [self] and the
    parameter [text] is bound to. *)
Definition helper_parameters (h : helper) : list string :=
  match h with
  | Init => ["lazy_load"; "logger_level"]
  | Normalize => ["normalizations"]
  | GetLogger | LoadStopWords | ParseNormalizations => []
  end%string.

(** What a call of another method returns in place of a text: [None], or
    the generator [_parse_normalizations] makes. *)
Inductive returned := NoneValue | Generator.

(** [getattr(self, normalization)(text, **kwargs)] for [__init__],
    [_load_stop_words] and [_parse_normalizations]: the call as a function
    of [text], and what it returns when it returns.  [text] is the language
    of [__init__] and of [_load_stop_words]; the body of the generator
    function does not run when it is called.  The result is [None] where
    the embedding has no type for the value of [logger_level] (an integer:
    a boolean is one), and for [_get_logger], which changes the logger
    only.  [normalize] is called by the loop itself. *)
Definition call_helper (h : helper) (kwargs : gmap string value)
    : option (str → M unit * returned) :=
  if negb (bool_decide (map_Forall (λ name _, name ∈ helper_parameters h) kwargs))
  then Some (λ _, (raise TypeError, NoneValue))
  else
    match h with
    | Init =>
        let lazy_load := from_option truth false (kwargs !! "lazy_load") in
        match kwargs !! "logger_level" with
        | None | Some (VBool _) =>
            Some (λ text, (init_body text lazy_load, NoneValue))
        | Some _ => None
        end
    | LoadStopWords => Some (λ text, (_load_stop_words text, NoneValue))
    | ParseNormalizations => Some (λ _, (ret (), Generator))
    | GetLogger | Normalize => None
    end%string.

(** How a run of steps ends: with the text or the exception of the call;
    or at a step that returned a value that is no text, with the instance
    as that step left it and the steps that come after it, which run on
    that value and are not followed (when there is none, the value is what
    [normalize] returns); or at a step that is outside the embedding: it
    names an attribute the instance has from [object] or [_get_logger], or
    one of its options holds a value of another type than the documented
    one. *)
Inductive outcome :=
  | Finished (r : result str) (self : Normalizr)
  | NotText (v : returned) (self : Normalizr)
            (rest : list (string * gmap string value))
  | Beyond.

(** The loop of [normalize].  [nested] is the call [self.normalize(text)]
    of a step named normalize, which runs the default steps: an option of a
    step cannot hold a list of steps, and an option [normalizations] that
    holds a value that counts as false gives way to the default steps as
    [None] does. *)
Fixpoint apply_normalizations_with (nested : str → Normalizr → outcome)
    (steps : list (string * gmap string value))
    (text : str) (self : Normalizr) : outcome :=
  match steps with
  | [] => Finished (Return text) self
  | (normalization, kwargs) :: steps' =>
      match getattr normalization with
      | None => Finished (Raise AttributeError) self
      | Some Inherited => Beyond
      | Some Data => Finished (Raise TypeError) self
      | Some (Transformation m) =>
          match call m kwargs with
          | None => Beyond
          | Some f =>
              match f text self with
              | (Return text', self') =>
                  apply_normalizations_with nested steps' text' self'
              | (Raise e, self') => Finished (Raise e) self'
              end
          end
      | Some (Helper Normalize) =>
          if negb (bool_decide
                     (map_Forall (λ name _, name ∈ helper_parameters Normalize) kwargs))
          then Finished (Raise TypeError) self
          else if from_option truth false (kwargs !! "normalizations"%string)
          then Beyond
          else
            match nested text self with
            | Finished (Return text') self' =>
                apply_normalizations_with nested steps' text' self'
            | Finished (Raise e) self' => Finished (Raise e) self'
            | NotText v self' _ => NotText v self' steps'
            | Beyond => Beyond
            end
      | Some (Helper h) =>
          match call_helper h kwargs with
          | None => Beyond
          | Some f =>
              match (f text).1 self with
              | (Return _, self') => NotText (f text).2 self' steps'
              | (Raise e, self') => Finished (Raise e) self'
              end
          end
      end
  end.

(** [normalizations or DEFAULT_NORMALIZATIONS], for [normalizations] that is
    [None] (the parameter's default) or a list. *)
Definition or_default (normalizations : option (list normalization))
    : list normalization :=
  match normalizations with
  | None | Some [] => Name <$> DEFAULT_NORMALIZATIONS
  | Some (normalization :: rest) => normalization :: rest
  end.

(** The run of the default steps.  None of them is named normalize. *)
Definition default_run (text : str) (self : Normalizr) : outcome :=
  apply_normalizations_with (λ _ _, Beyond)
    (_parse_normalizations (or_default None)) text self.

Definition apply_normalizations : list (string * gmap string value) →
    str → Normalizr → outcome :=
  apply_normalizations_with default_run.

(** A call of [normalize], with every way it can end. *)
Definition normalize_outcome (text : str)
    (normalizations : option (list normalization)) (self : Normalizr) : outcome :=
  apply_normalizations (_parse_normalizations (or_default normalizations)) text self.

(** The instance as a run leaves it, where the run is followed. *)
Definition state_of (end_ : outcome) : option Normalizr :=
  match end_ with
  | Finished _ self | NotText _ self _ => Some self
  | Beyond => None
  end.

(** A call of [normalize] that ends with a text or with an exception:
    what it returns or raises, and the instance as it leaves it. *)
Definition normalize (text : str) (normalizations : option (list normalization))
    (self : Normalizr) : option (result str * Normalizr) :=
  match normalize_outcome text normalizations self with
  | Finished r self' => Some (r, self')
  | NotText _ _ _ | Beyond => None
  end.

End Normalizr.

(** ** A sample runtime

    A small instance of [Runtime] on which the definitions are run.  It is
    faithful on ASCII text and on the letter é (233), whose decomposition is
    e followed by the combining acute accent (769).  [re_escape] is the one
    of Python 3.7 and later; [re_sub] interprets the patterns
    [replace_characters] builds, a character class of escaped characters,
    with a replacement that has no backslash, and leaves the text as it is
    for a pattern of another shape; the three patterns of normalizr.regex
    are stand-ins, and so are the lines of data/stop-en. *)
Module Sample.

Definition category (c : char) : string :=
  if (768 <=? c) && (c <=? 879) then "Mn"
  else if c =? 36 then "Sc"
  else if (c =? 94) || (c =? 96) then "Sk"
  else if (c =? 43) || (c =? 60) || (c =? 61) || (c =? 62) || (c =? 124) || (c =? 126)
       then "Sm"
  else if c =? 32 then "Zs"
  else if c <? 32 then "Cc"
  else if (48 <=? c) && (c <=? 57) then "Nd"
  else if (65 <=? c) && (c <=? 90) then "Lu"
  else if (97 <=? c) && (c <=? 122) || (c =? 233) then "Ll"
  else if (c =? 40) || (c =? 91) || (c =? 123) then "Ps"
  else if (c =? 41) || (c =? 93) || (c =? 125) then "Pe"
  else if c =? 45 then "Pd"
  else if c =? 95 then "Pc"
  else if c <? 127 then "Po"
  else "Cn".

Definition decompose (s : str) : str :=
  flat_map (λ c, if c =? 233 then [101; 769] else [c]) s.

Fixpoint compose (s : str) : str :=
  match s with
  | [] => []
  | c :: s' =>
      match s' with
      | c' :: s'' => if (c =? 101) && (c' =? 769) then 233 :: compose s''
                     else c :: compose s'
      | [] => [c]
      end
  end.

Definition normal_form (f : form) (s : str) : str :=
  match f with
  | NFD | NFKD => decompose s
  | NFC | NFKC => compose (decompose s)
  end.

Definition lower (s : str) : str :=
  (λ c, if (65 <=? c) && (c <=? 90) then c + 32 else c) <$> s.

Definition special_characters : list char :=
  [40; 41; 91; 93; 123; 125; 63; 42; 43; 45; 124; 94; 36; 92; 46; 38; 126; 35;
   32; 9; 10; 13; 11; 12].

Definition escape (s : str) : str :=
  flat_map (λ c, if bool_decide (c ∈ special_characters) then [92; c] else [c]) s.

(** The members of a class, read after its opening bracket. *)
Fixpoint class_members (escaped : bool) (body : str) : option (list char) :=
  match body with
  | [] => None
  | c :: rest =>
      if escaped then cons c <$> class_members false rest
      else if c =? 92 then class_members true rest
      else if c =? 93 then match rest with [] => Some [] | _ => None end
      else if (c =? 45) || (c =? 94) then None
      else cons c <$> class_members false rest
  end.

Definition sub (source : str) (repl : str) (s : str) : result str :=
  match source with
  | 91 :: body =>
      match class_members false body with
      | Some members =>
          if bool_decide (92 ∈ repl) then Raise re_error
          else Return (flat_map (λ c, if bool_decide (c ∈ members) then repl else [c]) s)
      | None => Return s
      end
  | _ => Return s
  end.

(** The lines of data/stop-en, each with the newline that ends it. *)
Definition stop_en : list str :=
  (λ line, line ++ [10]) <$>
    [u "a"; u "an"; u "the"; u "and"; u "of | prepositions"; u "to in"].

(** The names an instance has from [object] in CPython 3.12, [__init__]
    apart, which the class defines. *)
Definition attributes_of_object : list string :=
  ["__class__"; "__delattr__"; "__dict__"; "__dir__"; "__doc__"; "__eq__";
   "__format__"; "__ge__"; "__getattribute__"; "__getstate__"; "__gt__";
   "__hash__"; "__init_subclass__"; "__le__"; "__lt__"; "__module__";
   "__ne__"; "__new__"; "__reduce__"; "__reduce_ex__"; "__repr__";
   "__setattr__"; "__sizeof__"; "__str__"; "__subclasshook__";
   "__weakref__"]%string.

#[export] Instance runtime : Runtime := {|
  unicodedata_category := category;
  unicodedata_normalize := normal_form;
  str_lower := lower;
  re_escape := escape;
  re_sub := sub;
  EMAIL_REGEX := u "(?!)";
  URL_REGEX := u "(?!)";
  EMOJI_REGEX := u "(?!)";
  data_stop := λ language, if decide (language = u "en") then Some stop_en else None;
  object_attributes := attributes_of_object
|}.

End Sample.

(** * Properties *)

(** ** Splitting and joining *)

(** A word: not empty and free of whitespace. *)
Definition is_word (w : str) : Prop := w ≠ [] ∧ Forall (λ c, isspace c = false) w.

(** No two whitespace characters in a row. *)
Fixpoint single_spaced (s : str) : bool :=
  match s with
  | [] => true
  | c :: s' =>
      match s' with
      | [] => true
      | d :: _ => negb (isspace c && isspace d) && single_spaced s'
      end
  end.

Lemma flush_nonempty w : w ≠ [] → flush w = [w].
Proof. by destruct w. Qed.

Lemma flush_word acc :
  Forall (λ c, isspace c = false) acc → Forall is_word (flush acc).
Proof. destruct acc; simpl; constructor; [by split|constructor]. Qed.

Lemma split_from_app w acc s :
  Forall (λ c, isspace c = false) w →
  split_from acc (w ++ s) = split_from (acc ++ w) s.
Proof.
  intros Hw. revert acc. induction Hw as [|c w Hc _ IH]; intros acc; simpl.
  - by rewrite app_nil_r.
  - rewrite Hc, IH. by rewrite <- app_assoc.
Qed.

Lemma split_from_words acc s :
  Forall (λ c, isspace c = false) acc → Forall is_word (split_from acc s).
Proof.
  revert acc. induction s as [|c s IH]; intros acc Hacc; simpl.
  - by apply flush_word.
  - destruct (isspace c) eqn:Hc.
    + apply Forall_app. split; [by apply flush_word|apply IH; constructor].
    + apply IH. apply Forall_app. split; [done|]. by repeat constructor.
Qed.

Lemma split_words s : Forall is_word (split s).
Proof. apply split_from_words. constructor. Qed.

Lemma split_join ws : Forall is_word ws → split (join [32] ws) = ws.
Proof.
  induction 1 as [|w ws [Hne Hw] Hws IH]; [done|].
  unfold split. simpl. destruct ws as [|w' ws].
  - rewrite <- (app_nil_r w) at 1. rewrite split_from_app by done. simpl.
    by apply flush_nonempty.
  - rewrite split_from_app by done. cbn [app split_from].
    replace (isspace 32) with true by done.
    rewrite flush_nonempty by done. simpl. f_equal. apply IH.
Qed.

Lemma join_cons sep w w' ws :
  join sep (w :: w' :: ws) = w ++ sep ++ join sep (w' :: ws).
Proof. done. Qed.

Lemma join_head w ws c :
  Forall is_word (w :: ws) → head (join [32] (w :: ws)) = Some c → isspace c = false.
Proof.
  intros Hws. apply Forall_cons in Hws as [[Hne Hw] _].
  destruct w as [|c' w]; [done|]. apply Forall_cons in Hw as [Hc' _].
  destruct ws; simpl; congruence.
Qed.

Lemma join_last ws c :
  Forall is_word ws → last (join [32] ws) = Some c → isspace c = false.
Proof.
  induction 1 as [|w ws [Hne Hw] Hws IH]; [done|].
  destruct ws as [|w' ws].
  - simpl. intros Hc. eapply Forall_forall in Hw; [done|].
    by apply last_Some_elem_of.
  - rewrite join_cons, !last_app. destruct (last (join [32] (w' :: ws))) eqn:Hl.
    + intros [= ->]. by apply IH.
    + simpl. intros [= <-]. apply last_None in Hl.
      apply Forall_cons in Hws as [[Hne' _] _]. destruct w', ws; done.
Qed.

Lemma join_whitespace ws :
  Forall is_word ws → Forall (λ c, isspace c = true → c = 32) (join [32] ws).
Proof.
  induction 1 as [|w ws [Hne Hw] Hws IH]; [constructor|].
  assert (Forall (λ c, isspace c = true → c = 32) w) as Hw'.
  { eapply Forall_impl; [done|]. simpl. congruence. }
  destruct ws as [|w' ws]; [done|]. rewrite join_cons.
  apply Forall_app. split; [done|]. apply Forall_app. split; [|done].
  by repeat constructor.
Qed.

Lemma single_spaced_app w s :
  Forall (λ c, isspace c = false) w → single_spaced (w ++ s) = single_spaced s.
Proof.
  induction 1 as [|c w Hc Hw IH]; [done|]. cbn [app single_spaced].
  rewrite <- IH, Hc. by destruct (w ++ s).
Qed.

Lemma join_single_spaced ws :
  Forall is_word ws → single_spaced (join [32] ws) = true.
Proof.
  induction 1 as [|w ws [Hne Hw] Hws IH].
  - done.
  - destruct ws as [|w' ws].
    + simpl. rewrite <- (app_nil_r w). by rewrite single_spaced_app.
    + rewrite join_cons, single_spaced_app by done.
      cbn [app single_spaced]. rewrite IH.
      destruct (join [32] (w' :: ws)) as [|d ?] eqn:Hj; [done|].
      by rewrite (join_head w' ws d) by (by rewrite ?Hj).
Qed.

Lemma single_spaced_lookup s i c d :
  single_spaced s = true → s !! i = Some c → s !! S i = Some d →
  isspace c = true → isspace d = false.
Proof.
  revert i. induction s as [|c' s IH]; intros i Hs; [done|].
  destruct s as [|d' s]; [by destruct i|].
  cbn [single_spaced] in Hs. apply andb_true_iff in Hs as [Hcd Hs].
  destruct i as [|i].
  - simpl. intros [= ->] [= ->] Hc. rewrite Hc in Hcd. by destruct (isspace d).
  - intros Hc Hd. by apply (IH i).
Qed.

Lemma join_filter ws :
  Forall is_word ws →
  filter (λ c, isspace c = false) (join [32] ws) = concat ws.
Proof.
  induction 1 as [|w ws [Hne Hw] Hws IH]; [done|].
  assert (filter (λ c, isspace c = false) w = w) as Hfw.
  { clear Hne. induction Hw as [|c w Hc Hw IHw]; [done|].
    rewrite filter_cons_True by done. by rewrite IHw. }
  destruct ws as [|w' ws].
  - simpl. by rewrite app_nil_r.
  - rewrite join_cons, !filter_app, IH, Hfw. done.
Qed.

Lemma split_from_concat acc s :
  concat (split_from acc s) = acc ++ filter (λ c, isspace c = false) s.
Proof.
  revert acc. induction s as [|c s IH]; intros acc; simpl.
  - destruct acc; simpl; by rewrite ?app_nil_r.
  - destruct (isspace c) eqn:Hc.
    + rewrite concat_app, IH, filter_cons_False by congruence.
      destruct acc; simpl; by rewrite ?app_nil_r.
    + rewrite IH, filter_cons_True by done. by rewrite <- app_assoc.
Qed.

Lemma split_at_from_nonempty sep field s : split_at_from sep field s ≠ [].
Proof. revert field. induction s as [|c s IH]; intros field; simpl; [done|]. by destruct (c =? sep). Qed.

Lemma join_split_at_from sep field s :
  join [sep] (split_at_from sep field s) = field ++ s.
Proof.
  revert field. induction s as [|c s IH]; intros field; cbn [split_at_from].
  - simpl. by rewrite app_nil_r.
  - destruct (N.eqb_spec c sep) as [->|Hne].
    + specialize (IH []). pose proof (split_at_from_nonempty sep [] s) as Hs.
      destruct (split_at_from sep [] s); [done|]. by rewrite join_cons, IH.
    + rewrite IH. by rewrite <- app_assoc.
Qed.

Lemma split_at_from_fields sep field s :
  sep ∉ field → Forall (λ w, sep ∉ w) (split_at_from sep field s).
Proof.
  revert field. induction s as [|c s IH]; intros field Hf; simpl.
  - by repeat constructor.
  - destruct (N.eqb_spec c sep) as [->|Hne].
    + constructor; [done|]. apply IH, not_elem_of_nil.
    + apply IH. rewrite elem_of_app, list_elem_of_singleton. by intros [?|?].
Qed.

Lemma split_at_from_app sep w field s :
  sep ∉ w → split_at_from sep field (w ++ s) = split_at_from sep (field ++ w) s.
Proof.
  revert field. induction w as [|c w IH]; intros field Hw; simpl.
  - by rewrite app_nil_r.
  - apply not_elem_of_cons in Hw as [Hc Hw].
    destruct (N.eqb_spec c sep) as [->|_]; [done|].
    rewrite IH by done. by rewrite <- app_assoc.
Qed.

Lemma split_at_join sep ws :
  ws ≠ [] → Forall (λ w, sep ∉ w) ws → split_at sep (join [sep] ws) = ws.
Proof.
  intros Hne Hws. induction Hws as [|w ws Hw Hws IH]; [done|].
  unfold split_at. destruct ws as [|w' ws].
  - simpl. rewrite <- (app_nil_r w) at 1. by rewrite split_at_from_app.
  - rewrite join_cons, split_at_from_app by done. cbn [app split_at_from].
    rewrite N.eqb_refl. f_equal. by apply IH.
Qed.

(** ** The whitespace transformation *)

(** C6. [remove_extra_whitespaces] is idempotent, and what it returns is
    the words of the text (its maximal runs of non-whitespace characters, in
    order) with one space between two words: the words of the result are the
    words of the text, every whitespace character of the result is the space
    U+0020, the result neither starts nor ends with whitespace (a leading or
    trailing run leaves nothing), no two whitespace characters follow each
    other, and the non-whitespace characters are those of the text. *)
Theorem remove_extra_whitespaces_idempotent (text : str) :
  let out := remove_extra_whitespaces text in
  remove_extra_whitespaces out = out
  ∧ split out = split text
  ∧ Forall (λ c, isspace c = true → c = 32) out
  ∧ (∀ c, head out = Some c → isspace c = false)
  ∧ (∀ c, last out = Some c → isspace c = false)
  ∧ (∀ i c d, out !! i = Some c → out !! S i = Some d →
              isspace c = true → isspace d = false)
  ∧ filter (λ c, isspace c = false) out = filter (λ c, isspace c = false) text.
Proof.
  intros out. subst out. unfold remove_extra_whitespaces.
  change (u " ") with [32].
  pose proof (split_words text) as Hws.
  assert (split (join [32] (split text)) = split text) as Hsplit
    by by apply split_join.
  split_and!.
  - by rewrite Hsplit.
  - done.
  - by apply join_whitespace.
  - intros c. destruct (split text) as [|w ws]; [done|]. by apply join_head.
  - intros c. by apply join_last.
  - intros i c d. apply single_spaced_lookup. by apply join_single_spaced.
  - rewrite join_filter by done. apply (split_from_concat [] text).
Qed.

(** ** Sorting the characters *)

Lemma sorted_permutation cs : sorted cs ≡ₚ cs.
Proof. apply merge_sort_Permutation. Qed.

(** Two strings have the same sorted form exactly when they hold the same
    characters the same number of times. *)
Lemma sorted_eq_iff cs1 cs2 : sorted cs1 = sorted cs2 ↔ cs1 ≡ₚ cs2.
Proof.
  split.
  - intros Heq. by rewrite <- (sorted_permutation cs1), Heq, sorted_permutation.
  - intros Hperm. apply (Sorted_unique N.le); [apply Sorted_merge_sort, _..|].
    by rewrite !sorted_permutation.
Qed.


(** ** The methods and the dispatcher *)

Section Properties.
Context `{Runtime}.

(** The default list, run step by step. *)
Definition default_pipeline (text : str) : M str :=
  text <- ret (remove_extra_whitespaces text) ;;
  text <- replace_punctuation text None [] ;;
  text <- lift (replace_symbols text (u "NFKD") ∅ []) ;;
  remove_stop_words text true.

(** Looks up the names that are given in full. *)
Ltac resolve_getattr :=
  repeat match goal with
  | |- context [getattr ?name] =>
      let attribute := eval vm_compute in (getattr name) in
      change (getattr name) with attribute
  end.

Lemma getattr_transformation name m :
  (name, m) ∈ transformations → getattr name = Some (Transformation m).
Proof.
  intros Hin. unfold transformations in Hin.
  repeat (apply elem_of_cons in Hin as [[= -> ->]|Hin]; [by vm_compute|]).
  by apply elem_of_nil in Hin.
Qed.

(** A step with no options: the method with the defaults of its signature.
    Only [replace_characters], which has a parameter without default, cannot
    be called that way. *)
Lemma call_no_options m :
  call m ∅ =
  Some (match m with
        | RemoveAccentMarks => λ text, ret (remove_accent_marks text ∅)
        | RemoveExtraWhitespaces => λ text, ret (remove_extra_whitespaces text)
        | RemoveStopWords => λ text, remove_stop_words text true
        | ReplaceEmails => λ text, lift (replace_emails text [])
        | ReplaceEmojis => λ text, lift (replace_emojis text [])
        | ReplaceCharacters => λ _, raise TypeError
        | ReplaceHyphens => λ text, ret (replace_hyphens text (u " "))
        | ReplacePunctuation => λ text, replace_punctuation text None []
        | ReplaceSymbols => λ text, lift (replace_symbols text (u "NFKD") ∅ [])
        | ReplaceUrls => λ text, lift (replace_urls text [])
        end).
Proof. by destruct m. Qed.

(** A run that ended with a text or an exception. *)
Definition finished (end_ : result str * Normalizr) : outcome :=
  Finished end_.1 end_.2.

Lemma apply_default_normalizations nested text self :
  apply_normalizations_with nested
    (_parse_normalizations (Name <$> DEFAULT_NORMALIZATIONS)) text self
  = finished (default_pipeline text self).
Proof.
  unfold default_pipeline, bind, DEFAULT_NORMALIZATIONS.
  cbn [fmap list_fmap _parse_normalizations apply_normalizations_with].
  resolve_getattr. cbn match. rewrite !call_no_options. unfold ret, lift.
  destruct (replace_punctuation _ _ _ _) as [[text1|e1] self1]; [|done].
  destruct (replace_symbols _ _ _ _) as [text2|e2]; [|done].
  by destruct (remove_stop_words _ _ _) as [[text3|e3] self3].
Qed.

Lemma default_run_pipeline text self :
  default_run text self = finished (default_pipeline text self).
Proof. apply apply_default_normalizations. Qed.

Lemma normalize_default text normalizations self :
  or_default normalizations = Name <$> DEFAULT_NORMALIZATIONS →
  normalize text normalizations self = Some (default_pipeline text self).
Proof.
  intros Hdefault. unfold normalize, normalize_outcome, apply_normalizations.
  rewrite Hdefault, apply_default_normalizations.
  by destruct (default_pipeline text self).
Qed.

(** C2. With the list of steps omitted, [normalize] is the four steps
    remove_extra_whitespaces, replace_punctuation, replace_symbols and
    remove_stop_words in this order, each called with the text the step
    before it returned and with the defaults of its options, and the text
    the last one returns is the result.  A step that raises ends the call
    with its exception. *)
Theorem normalize_default_pipeline (text : str) (self : Normalizr) :
  normalize text None self
  = Some ((text1 <- ret (remove_extra_whitespaces text) ;;
           text2 <- replace_punctuation text1 None [] ;;
           text3 <- lift (replace_symbols text2 (u "NFKD") ∅ []) ;;
           remove_stop_words text3 true) self).
Proof. by apply normalize_default. Qed.

(** C10. An empty list of steps is replaced by the default list, as an
    omitted one is: the four default steps run, and the text is not handed
    back as it came. *)
Theorem normalize_empty_list_is_default (text : str) (self : Normalizr) :
  normalize text (Some []) self = normalize text None self
  ∧ normalize text (Some []) self = Some (default_pipeline text self).
Proof. by rewrite !normalize_default. Qed.

(** C4. With no characters to replace, [replace_characters] returns the
    text as it is, whatever the replacement: nothing is raised, and the
    instance, its cache included, is left as it was.  The same holds when
    [normalize] runs it as a step whose [characters] option is the empty
    string. *)
Theorem replace_characters_empty (text replacement : str) (self : Normalizr) :
  replace_characters text [] replacement self = (Return text, self)
  ∧ normalize text
      (Some [Pair "replace_characters"
               {[ "characters"%string := VStr []; "replacement"%string := VStr replacement ]}])
      self
    = Some (Return text, self).
Proof.
  split; [done|]. unfold normalize, normalize_outcome, apply_normalizations.
  cbn [or_default _parse_normalizations fmap list_fmap apply_normalizations_with].
  resolve_getattr. cbn match.
  assert (call ReplaceCharacters
            {[ "characters"%string := VStr []; "replacement"%string := VStr replacement ]}
          = Some (λ text, replace_characters text [] replacement)) as ->
    by by vm_compute.
  done.
Qed.

(** *** Stop words *)

(** C3. [remove_stop_words] cuts the text at every single space (the
    tokens joined by single spaces are the text, and no token holds a
    space), loads the stop words first when the set is empty (an exception
    of the load ends the call), drops the tokens whose lower-cased form,
    or the token itself when [ignore_case] is false, is in the set, and
    joins the tokens it keeps by single spaces.  The tokens kept are a
    subsequence of the tokens of the text: they come in the order they had,
    and they are the tokens of the result. *)
Theorem remove_stop_words_filters_in_order (text : str) (ignore_case : bool)
    (self : Normalizr) :
  let key := λ word, if ignore_case then str_lower word else word in
  let tokens := split_at 32 text in
  let load := if decide (__stop_words self = ∅)
              then _load_stop_words (__language self) else ret () in
  join [32] tokens = text
  ∧ Forall (λ token, 32 ∉ token) tokens
  ∧ match load self with
    | (Raise e, self') =>
        remove_stop_words text ignore_case self = (Raise e, self')
    | (Return _, self') =>
        let kept := filter (λ word, key word ∉ __stop_words self') tokens in
        remove_stop_words text ignore_case self = (Return (join [32] kept), self')
        ∧ kept `sublist_of` tokens
        ∧ (∀ word, word ∈ kept ↔ word ∈ tokens ∧ key word ∉ __stop_words self')
        ∧ (kept ≠ [] → split_at 32 (join [32] kept) = kept)
    end.
Proof.
  intros key tokens load.
  assert (Forall (λ token, 32 ∉ token) tokens) as Htokens
    by apply split_at_from_fields, not_elem_of_nil.
  split_and!; [apply (join_split_at_from 32 [] text)|done|].
  unfold remove_stop_words, bind, get. fold load.
  destruct (load self) as [[[]|e] self']; [|done].
  set (kept := filter _ tokens). split_and!.
  - done.
  - apply sublist_filter.
  - intros word. unfold kept. rewrite list_elem_of_filter. tauto.
  - intros Hne. apply split_at_join; [done|].
    rewrite Forall_forall in Htokens |- *. intros token Htoken.
    eapply Htokens, elem_of_sublist; [done|apply sublist_filter].
Qed.

Lemma load_missing language self :
  data_stop language = None →
  _load_stop_words language self = (Raise IOError, self).
Proof. unfold _load_stop_words. by intros ->. Qed.

(** C8. For a language that has no file under data/, loading the stop
    words raises IOError (the spec's ResourceNotFoundError) and changes
    nothing.  The constructor raises it when it loads, and returns an
    instance with no stop words when it is told not to; on that instance
    the first use of the stop words, and every later one, raises it, from
    [remove_stop_words] called directly and from [normalize] running it as a
    step.  The exception is the outcome of the call: no result is returned
    in its place. *)
Theorem missing_resource_raises (language : str) :
  data_stop language = None →
  (∀ self, _load_stop_words language self = (Raise IOError, self))
  ∧ __init__ language false = Raise IOError
  ∧ ∃ self, __init__ language true = Return self
      ∧ __stop_words self = ∅
      ∧ (∀ text ignore_case,
           remove_stop_words text ignore_case self = (Raise IOError, self))
      ∧ (∀ text,
           normalize text (Some [Name "remove_stop_words"]) self
           = Some (Raise IOError, self)).
Proof.
  intros Hmissing. split_and!.
  - intros self. by apply load_missing.
  - unfold __init__. cbn [negb]. by rewrite load_missing.
  - eexists. split_and!; [done|done|..].
    + intros text ignore_case. unfold remove_stop_words, bind, get.
      cbn [__stop_words __language]. rewrite decide_True by done.
      by rewrite load_missing.
    + intros text. unfold normalize, normalize_outcome, apply_normalizations.
      cbn [or_default _parse_normalizations fmap list_fmap
           apply_normalizations_with].
      resolve_getattr. cbn match. rewrite call_no_options. unfold remove_stop_words, bind, get.
      cbn [__stop_words __language]. rewrite decide_True by done.
      by rewrite load_missing.
Qed.


(** *** Accent marks *)

(** C7. [remove_accent_marks] puts the text in the decomposed form NFKD,
    drops from it the characters of category Mn that are not in [excluded],
    keeping every other character in its place, and puts what is kept in
    the composed form NFKC.  For café this gives cafe, by the Unicode data
    for its characters: é decomposes into e and the combining acute accent
    U+0301, which has category Mn, the four letters have another category,
    and cafe is its own composed form. *)
Theorem remove_accent_marks_drops_marks :
  (∀ (text : str) (excluded : gset char),
     let decomposed := unicodedata_normalize NFKD text in
     ∃ kept dropped,
       remove_accent_marks text excluded = unicodedata_normalize NFKC kept
       ∧ kept `sublist_of` decomposed
       ∧ kept ++ dropped ≡ₚ decomposed
       ∧ Forall (λ c, unicodedata_category c ≠ "Mn"%string ∨ c ∈ excluded) kept
       ∧ Forall (λ c, unicodedata_category c = "Mn"%string ∧ c ∉ excluded) dropped)
  ∧ (unicodedata_normalize NFKD [99; 97; 102; 233] = [99; 97; 102; 101; 769] →
     unicodedata_category 769 = "Mn"%string →
     Forall (λ c, unicodedata_category c ≠ "Mn"%string) [99; 97; 102; 101] →
     unicodedata_normalize NFKC [99; 97; 102; 101] = [99; 97; 102; 101] →
     remove_accent_marks [99; 97; 102; 233] ∅ = [99; 97; 102; 101]).
Proof.
  split.
  - intros text excluded decomposed.
    exists (filter (λ c, unicodedata_category c ≠ "Mn"%string ∨ c ∈ excluded)
              decomposed),
           (filter (λ c, ¬ (unicodedata_category c ≠ "Mn"%string ∨ c ∈ excluded))
              decomposed).
    split_and!.
    + done.
    + apply sublist_filter.
    + apply filter_app_complement.
    + apply Forall_forall. by intros c [Hc _]%list_elem_of_filter.
    + apply Forall_forall. intros c [Hc _]%list_elem_of_filter.
      destruct (decide (unicodedata_category c = "Mn"%string)); [|tauto].
      split; [done|tauto].
  - intros Hdecomposed Hmark Hletters Hcomposed.
    unfold remove_accent_marks. rewrite Hdecomposed.
    repeat (apply Forall_cons in Hletters as [? Hletters]).
    rewrite !filter_cons_True by by left.
    rewrite filter_cons_False; [done|].
    intros [?|?%not_elem_of_empty]; done.
Qed.


(** *** The cache of compiled classes *)

(** What [characters_regex] does on a hit and on a miss. *)
Lemma characters_regex_hit characters r self :
  __characters_regexes self !! sorted characters = Some r →
  characters_regex characters self = (Return r, self).
Proof. unfold characters_regex, bind, get. by intros ->. Qed.

Lemma characters_regex_miss characters self :
  __characters_regexes self !! sorted characters = None →
  let r := {| pattern := u "[" ++ re_escape (sorted characters) ++ u "]";
              object_id := allocated self |} in
  characters_regex characters self
  = (Return r,
     {| __language := __language self;
        __stop_words := __stop_words self;
        __characters_regexes := <[sorted characters := r]> (__characters_regexes self);
        allocated := S (allocated self) |}).
Proof. unfold characters_regex, bind, get. by intros ->. Qed.

(** After the call the object returned is the one stored under the sorted
    string, and no entry, stop word or attribute was lost. *)
Lemma characters_regex_stored characters self r self' :
  characters_regex characters self = (Return r, self') →
  __characters_regexes self' !! sorted characters = Some r
  ∧ __characters_regexes self ⊆ __characters_regexes self'
  ∧ __stop_words self' = __stop_words self
  ∧ __language self' = __language self.
Proof.
  destruct (__characters_regexes self !! sorted characters) as [r'|] eqn:Hr.
  - rewrite (characters_regex_hit _ r') by done. by intros [= <- <-].
  - rewrite characters_regex_miss by done. intros [= <- <-]. simpl.
    split_and!; [by rewrite lookup_insert_eq|by apply insert_subseteq|done..].
Qed.

Lemma characters_regex_returns characters self :
  ∃ r self', characters_regex characters self = (Return r, self').
Proof.
  destruct (__characters_regexes self !! sorted characters) as [r'|] eqn:Hr.
  - rewrite (characters_regex_hit _ r') by done. eauto.
  - rewrite characters_regex_miss by done. eauto.
Qed.





(** *** The state only grows *)

(** [grows self self']: every stop word of [self] is a stop word of
    [self'], and every entry of the cache of [self] is an entry of the
    cache of [self'], under the same key and with the same pattern object. *)
Definition grows (self self' : Normalizr) : Prop :=
  __stop_words self ⊆ __stop_words self'
  ∧ __characters_regexes self ⊆ __characters_regexes self'.

#[local] Instance grows_preorder : PreOrder grows.
Proof.
  split.
  - by intros self.
  - intros self1 self2 self3 [? ?] [? ?]. split; by etrans.
Qed.

Lemma bind_grows {A B} (m : M A) (k : A → M B) self :
  grows self (m self).2 → (∀ a self', grows self' (k a self').2) →
  grows self (bind m k self).2.
Proof.
  intros Hm Hk. unfold bind. destruct (m self) as [[a|e] self'] eqn:Hrun.
  - etrans; [exact Hm|apply Hk].
  - exact Hm.
Qed.

Lemma for_each_grows {A} (xs : list A) (body : A → M unit) :
  (∀ x self, grows self (body x self).2) →
  ∀ self, grows self (for_each xs body self).2.
Proof.
  intros Hbody. induction xs as [|x xs IH]; intros self; [done|].
  cbn [for_each]. apply bind_grows; [apply Hbody|]. intros _. apply IH.
Qed.

Lemma add_stop_word_grows w self : grows self (add_stop_word w self).2.
Proof. split; simpl; [set_solver|done]. Qed.

Lemma load_stop_words_grows language self :
  grows self (_load_stop_words language self).2.
Proof.
  unfold _load_stop_words. destruct (data_stop language) as [file|]; [|done].
  apply for_each_grows. intros line self'.
  destruct (split_at 124 line) as [|field fields]; [done|].
  apply for_each_grows. intros w self''. apply add_stop_word_grows.
Qed.

Lemma remove_stop_words_grows text ignore_case self :
  grows self (remove_stop_words text ignore_case self).2.
Proof.
  unfold remove_stop_words. apply bind_grows; [done|]. intros self0 self1.
  apply bind_grows; [|intros; by apply bind_grows].
  destruct (decide _); [apply load_stop_words_grows|done].
Qed.

Lemma replace_characters_grows text characters replacement self :
  grows self (replace_characters text characters replacement self).2.
Proof.
  unfold replace_characters. destruct characters as [|c cs]; [done|].
  apply bind_grows; [|done].
  destruct (characters_regex_returns (c :: cs) self) as (r & self' & Hrun).
  rewrite Hrun. apply characters_regex_stored in Hrun as (_ & Hcache & Hwords & _).
  split; simpl; [by rewrite Hwords|done].
Qed.

Lemma replace_punctuation_grows text excluded replacement self :
  grows self (replace_punctuation text excluded replacement self).2.
Proof. apply replace_characters_grows. Qed.

Create HintDb grows.
#[local] Hint Resolve load_stop_words_grows remove_stop_words_grows
  replace_characters_grows replace_punctuation_grows : grows.



(** The steps of a list are run through [_parse_normalizations]: a step
    re-runs the constructor when its name is [__init__]. *)
Definition no_init (steps : list (string * gmap string value)) : Prop :=
  Forall (λ step, getattr step.1 ≠ Some (Helper Init)) steps.


Lemma default_steps_no_init : no_init (_parse_normalizations (or_default None)).
Proof. repeat constructor; by vm_compute. Qed.


Lemma parse_no_init normalizations :
  Forall (λ step, getattr (name_of step) ≠ Some (Helper Init)) normalizations →
  no_init (_parse_normalizations normalizations).
Proof.
  intros Hsteps. unfold no_init, _parse_normalizations. rewrite Forall_fmap.
  eapply Forall_impl; [exact Hsteps|]. by intros [name|name kwargs].
Qed.



(** *** Steps with an unknown name *)

(** C1 as the spec states it, for one call, in its first half: when some
    step of the list has a name that is the name of no transformation, the
    call raises AttributeError (the spec's UnknownOperationError). *)
Definition unknown_step_claim (text : str) (steps : list normalization)
    (self : Normalizr) : Prop :=
  (∃ step, step ∈ steps ∧ name_of step ∉ transformations.*1) →
  ∃ self', normalize_outcome text (Some steps) self
           = Finished (Raise AttributeError) self'.

(** The names [getattr] does not find: those of no method and of no other
    attribute the instance has. *)
Lemma getattr_None name :
  getattr name = None ↔
  (name ∉ transformations.*1) ∧ (name ∉ helpers.*1)
  ∧ (name ∉ data_attributes) ∧ (name ∉ object_attributes).
Proof.
  unfold getattr.
  destruct (list_find _ transformations) as [[i [name' m]]|] eqn:Hfind.
  { apply list_find_Some in Hfind as (Hi & Hname & _). simpl in Hname. subst.
    split; [done|]. intros [[] _]. apply list_elem_of_fmap.
    exists (name, m). split; [done|]. by eapply list_elem_of_lookup_2. }
  apply list_find_None in Hfind.
  assert (name ∉ transformations.*1) as Hnot.
  { intros ([name' m] & -> & Hin)%list_elem_of_fmap.
    by eapply Forall_forall in Hfind. }
  destruct (list_find _ helpers) as [[i [name' h]]|] eqn:Hhelper.
  { apply list_find_Some in Hhelper as (Hi & Hname & _). simpl in Hname. subst.
    split; [done|]. intros (_ & [] & _). apply list_elem_of_fmap.
    exists (name, h). split; [done|]. by eapply list_elem_of_lookup_2. }
  apply list_find_None in Hhelper.
  assert (name ∉ helpers.*1) as Hnot'.
  { intros ([name' h] & -> & Hin)%list_elem_of_fmap.
    by eapply Forall_forall in Hhelper. }
  repeat case_bool_decide; split; try done; intuition.
Qed.

Lemma apply_normalizations_with_app nested steps steps' text self :
  apply_normalizations_with nested (steps ++ steps') text self
  = match apply_normalizations_with nested steps text self with
    | Finished (Return text') self' =>
        apply_normalizations_with nested steps' text' self'
    | NotText v self' rest => NotText v self' (rest ++ steps')
    | end_ => end_
    end.
Proof.
  revert text self. induction steps as [|[name kwargs] steps IH];
    intros text self; cbn [app apply_normalizations_with]; [done|].
  destruct (getattr name) as [[m|h| |]|]; [| |done..].
  - destruct (call m kwargs) as [f|]; [|done].
    by destruct (f text self) as [[text1|e] self1].
  - destruct h.
    + destruct (call_helper Init kwargs) as [f|]; [|done].
      by destruct ((f text).1 self) as [[[]|e] self1].
    + destruct (call_helper GetLogger kwargs) as [f|]; [|done].
      by destruct ((f text).1 self) as [[[]|e] self1].
    + destruct (call_helper LoadStopWords kwargs) as [f|]; [|done].
      by destruct ((f text).1 self) as [[[]|e] self1].
    + destruct (call_helper ParseNormalizations kwargs) as [f|]; [|done].
      by destruct ((f text).1 self) as [[[]|e] self1].
    + destruct (negb _); [done|]. destruct (from_option truth false _); [done|].
      by destruct (nested text self) as [[text1|e] self1|v self1 rest|].
Qed.

(** C1, as amended.  When the steps before the first step whose name is no
    attribute of the instance all return a text, [normalize] raises
    AttributeError (the spec's UnknownOperationError) at that step, and the
    steps after it do not run.  The failing step changes nothing: the
    instance is left as the steps before it left it, and as it was before
    the call when the step is the first one. *)
Theorem normalize_unknown_step (text text' : str)
    (before after : list normalization) (step : normalization)
    (self self' : Normalizr) :
  getattr (name_of step) = None →
  apply_normalizations (_parse_normalizations before) text self
  = Finished (Return text') self' →
  normalize text (Some (before ++ step :: after)) self
  = Some (Raise AttributeError, self').
Proof.
  intros Hname Hbefore. unfold normalize, normalize_outcome.
  replace (or_default (Some (before ++ step :: after)))
    with (before ++ step :: after) by by destruct before.
  unfold _parse_normalizations, apply_normalizations in *. rewrite fmap_app.
  rewrite apply_normalizations_with_app, Hbefore.
  cbn [fmap list_fmap apply_normalizations_with].
  by destruct step; simpl in Hname; rewrite Hname.
Qed.

End Properties.

(** ** The sample runtime at work *)

Section Evaluation.
#[local] Existing Instance Sample.runtime.

(** The instance [Normalizr(language='en', lazy_load=True)] returns. *)
Definition fresh : Normalizr :=
  {| __language := u "en"; __stop_words := ∅; __characters_regexes := ∅;
     allocated := 0 |}.

(** [fresh] after its first call of [replace_punctuation]: the class of the
    32 punctuation characters is in the cache, under their sorted string. *)
Definition punctuated : Normalizr :=
  {| __language := u "en"; __stop_words := ∅;
     __characters_regexes :=
       {[ string_punctuation :=
            {| pattern := u "[" ++ Sample.escape string_punctuation ++ u "]";
               object_id := 0 |} ]};
     allocated := 1 |}.

Example fresh_constructed : __init__ (u "en") true = Return fresh.
Proof. reflexivity. Qed.

Example whitespace_collapsed :
  remove_extra_whitespaces (u "  Hello   World!  ") = u "Hello World!".
Proof. reflexivity. Qed.

Example whitespace_only : remove_extra_whitespaces [32; 9; 10; 160] = [].
Proof. reflexivity. Qed.

Example stop_words_removed :
  (remove_stop_words (u "The cat and  the hat") true fresh).1
  = Return (u "cat  hat").
Proof. by vm_compute. Qed.

Example stop_words_case_kept :
  (remove_stop_words (u "The cat and the hat") false fresh).1
  = Return (u "The cat hat").
Proof. by vm_compute. Qed.

Example default_pipeline_run :
  fst <$> normalize (u "  Hello   the World!  ") None fresh
  = Some (Return (u "Hello World")).
Proof. by vm_compute. Qed.

Example characters_replaced :
  (replace_characters (u "a,b;c") (u ",;") (u "-") fresh).1 = Return (u "a-b-c").
Proof. by vm_compute. Qed.

Example undeclared_option :
  normalize (u "a-b")
    (Some [Pair "replace_hyphens" {[ "replacemen"%string := VStr (u "+") ]}]) fresh
  = Some (Raise TypeError, fresh).
Proof. by vm_compute. Qed.

(** [fresh] after a run of the default steps: the stop words are loaded
    and the class of the punctuation characters is in the cache. *)
Definition normalized : Normalizr :=
  {| __language := u "en";
     __stop_words :=
       list_to_set [u "a"; u "an"; u "the"; u "and"; u "of"; u "to"; u "in"];
     __characters_regexes :=
       {[ string_punctuation :=
            {| pattern := u "[" ++ Sample.escape string_punctuation ++ u "]";
               object_id := 0 |} ]};
     allocated := 1 |}.

Example unknown_names :
  getattr "nope" = None ∧ getattr "__nope" = None ∧ getattr "__language" = None.
Proof. by vm_compute. Qed.

Example data_attribute_called :
  normalize (u "a") (Some [Name "_Normalizr__language"]) fresh
  = Some (Raise TypeError, fresh).
Proof. by vm_compute. Qed.

(** C1, counterexample.  Two calls on [fresh] whose lists have a step with
    a name that is the name of no transformation, and which do not raise
    AttributeError.  In the first, the step before the one named nope
    passes replace_hyphens an option it does not declare: the call raises
    TypeError there, and the unknown step is never reached.  In the second,
    the step is named normalize, which is no transformation but a method of
    the class: the call runs the default steps on the text and returns. *)
Lemma normalize_unknown_step_counterexample :
  (normalize_outcome (u "a-b")
     (Some [Pair "replace_hyphens" {[ "replacemen"%string := VStr (u "+") ]};
            Name "nope"]) fresh
   = Finished (Raise TypeError) fresh
   ∧ ¬ unknown_step_claim (u "a-b")
        [Pair "replace_hyphens" {[ "replacemen"%string := VStr (u "+") ]};
         Name "nope"] fresh)
  ∧ (normalize_outcome (u "b!") (Some [Name "normalize"]) fresh
     = Finished (Return (u "b")) normalized
     ∧ ¬ unknown_step_claim (u "b!") [Name "normalize"] fresh).
Proof.
  split.
  - assert (normalize_outcome (u "a-b")
              (Some [Pair "replace_hyphens" {[ "replacemen"%string := VStr (u "+") ]};
                     Name "nope"]) fresh
            = Finished (Raise TypeError) fresh) as Hrun by by vm_compute.
    split; [done|]. intros Hclaim. destruct Hclaim as (self' & Hrun').
    { exists (Name "nope"). split; [by right; left|].
      refine (proj1 (bool_decide_eq_false _) _). by vm_compute. }
    rewrite Hrun in Hrun'. discriminate.
  - assert (normalize_outcome (u "b!") (Some [Name "normalize"]) fresh
            = Finished (Return (u "b")) normalized) as Hrun by by vm_compute.
    split; [done|]. intros Hclaim. destruct Hclaim as (self' & Hrun').
    { exists (Name "normalize"). split; [by left|].
      refine (proj1 (bool_decide_eq_false _) _). by vm_compute. }
    rewrite Hrun in Hrun'. discriminate.
Qed.

(** C1 as amended, at a call on [fresh]: replace_punctuation runs, and the
    step after it has a name the instance does not have. *)
Lemma normalize_unknown_step_witness :
  getattr (name_of (Name "__nope")) = None
  ∧ apply_normalizations (_parse_normalizations [Name "replace_punctuation"])
      (u "a!") fresh = Finished (Return (u "a")) punctuated
  ∧ normalize (u "a!")
      (Some ([Name "replace_punctuation"] ++ Name "__nope" :: [Name "remove_stop_words"]))
      fresh
    = Some (Raise AttributeError, punctuated).
Proof.
  split; [|split].
  - vm_compute. reflexivity.
  - vm_compute. reflexivity.
  - apply (normalize_unknown_step (u "a!") (u "a")).
    + vm_compute. reflexivity.
    + vm_compute. reflexivity.
Defined.




(** C7 on the sample data: café gives cafe. *)
Lemma remove_accent_marks_cafe_witness :
  unicodedata_normalize NFKD [99; 97; 102; 233] = [99; 97; 102; 101; 769]
  ∧ unicodedata_category 769 = "Mn"%string
  ∧ remove_accent_marks [99; 97; 102; 233] ∅ = [99; 97; 102; 101].
Proof.
  split; [|split].
  - reflexivity.
  - reflexivity.
  - apply (proj2 remove_accent_marks_drops_marks).
    + reflexivity.
    + reflexivity.
    + repeat constructor; vm_compute; discriminate.
    + reflexivity.
Defined.

(** C8 on the sample data, which has no file data/stop-xx. *)
Lemma missing_resource_raises_witness :
  data_stop (u "xx") = None
  ∧ __init__ (u "xx") false = Raise IOError
  ∧ normalize (u "the cat") (Some [Name "remove_stop_words"])
      {| __language := u "xx"; __stop_words := ∅; __characters_regexes := ∅;
         allocated := 0 |}
    = Some (Raise IOError,
            {| __language := u "xx"; __stop_words := ∅;
               __characters_regexes := ∅; allocated := 0 |}).
Proof.
  pose proof (missing_resource_raises (u "xx") eq_refl)
    as (_ & Hinit & self & Hself & _ & _ & Hnormalize).
  split; [reflexivity|]. split; [exact Hinit|].
  injection Hself as <-. apply Hnormalize.
Defined.

(** An instance with stop words and a pattern in its cache: the one
    [Normalizr(language='en')] returns, after [replace_characters] was
    called on it with the characters abc. *)
Definition seasoned : Normalizr :=
  {| __language := u "en";
     __stop_words :=
       list_to_set [u "a"; u "an"; u "the"; u "and"; u "of"; u "to"; u "in"];
     __characters_regexes := {[ u "abc" := {| pattern := u "[abc]"; object_id := 0 |} ]};
     allocated := 1 |}.

Example seasoned_reached :
  match __init__ (u "en") false with
  | Return self => (replace_characters (u "x") (u "abc") [] self).2 = seasoned
  | Raise _ => False
  end.
Proof. by vm_compute. Qed.





End Evaluation.

(** * Further properties of the methods *)

(** ** More on splitting, joining and stripping *)

(** The part of a line before its first [sep], the whole line when it has
    none. *)
Fixpoint before (sep : char) (line : str) : str :=
  match line with
  | [] => []
  | c :: line' => if c =? sep then [] else c :: before sep line'
  end.

Lemma split_at_from_head sep field s :
  head (split_at_from sep field s) = Some (field ++ before sep s).
Proof.
  revert field. induction s as [|c s IH]; intros field; simpl.
  - by rewrite app_nil_r.
  - destruct (c =? sep); simpl; [by rewrite app_nil_r|].
    rewrite IH. by rewrite <- app_assoc.
Qed.

Lemma lstrip_word w : Forall (λ c, isspace c = false) w → lstrip w = w.
Proof. destruct 1 as [|c w Hc _]; simpl; [done|by rewrite Hc]. Qed.

(** [strip] leaves a word of [split] as it is. *)
Lemma strip_word w : is_word w → strip w = w.
Proof.
  intros [_ Hw]. unfold strip. rewrite (lstrip_word w) by done.
  rewrite lstrip_word by by apply Forall_reverse. apply reverse_involutive.
Qed.

Lemma split_from_all_space acc s :
  split_from acc s = [] ↔ acc = [] ∧ Forall (λ c, isspace c = true) s.
Proof.
  revert acc. induction s as [|c s IH]; intros acc; simpl.
  - destruct acc; simpl; split; [done|by intros [? _]|done|by intros [? _]].
  - destruct (isspace c) eqn:Hc.
    + rewrite app_nil, IH, Forall_cons.
      destruct acc; simpl; split; try done; intros; intuition done.
    + rewrite IH, Forall_cons. split.
      * intros [Hacc _]. by apply app_nil in Hacc as [_ ?].
      * intros [_ [? _]]. congruence.
Qed.

Lemma join_nil_inv ws : Forall is_word ws → join [32] ws = [] → ws = [].
Proof.
  destruct 1 as [|w ws [Hne _] _]; [done|].
  destruct ws; simpl; [done|]. by intros [? _]%app_nil.
Qed.

Lemma join_split_from_length acc s :
  (length (join [32%N] (split_from acc s)) ≤ length acc + length s)%nat.
Proof.
  revert acc. induction s as [|c s IH]; intros acc; simpl.
  - destruct acc; simpl; lia.
  - destruct (isspace c).
    + specialize (IH []). destruct acc as [|a acc]; simpl in *; [lia|].
      destruct (split_from [] s); simpl in *; [lia|].
      rewrite length_app. simpl. lia.
    + specialize (IH (acc ++ [c])). rewrite length_app in IH. simpl in IH. lia.
Qed.

(** X6. [remove_extra_whitespaces] returns the empty string exactly for a
    text that has only whitespace (the empty text included), and its result
    is never longer than the text. *)
Theorem remove_extra_whitespaces_empty_and_shorter (text : str) :
  (remove_extra_whitespaces text = [] ↔ Forall (λ c, isspace c = true) text)
  ∧ (length (remove_extra_whitespaces text) ≤ length text)%nat.
Proof.
  unfold remove_extra_whitespaces. change (u " ") with [32]. split.
  - split.
    + intros Hnil. apply join_nil_inv in Hnil; [|apply split_words].
      by apply (split_from_all_space [] text) in Hnil as [_ ?].
    + intros Hall. unfold split.
      by rewrite (proj2 (split_from_all_space [] text)).
  - apply (join_split_from_length [] text).
Qed.

(** ** Hyphens *)

Lemma replace_hyphens_cons c text replacement :
  replace_hyphens (c :: text) replacement
  = (if c =? 45 then replacement else [c]) ++ replace_hyphens text replacement.
Proof. done. Qed.

Lemma replace_hyphens_without text replacement :
  45 ∉ text → replace_hyphens text replacement = text.
Proof.
  induction text as [|c text IH]; [done|]. intros [Hc Htext]%not_elem_of_cons.
  rewrite replace_hyphens_cons, IH by done.
  by destruct (N.eqb_spec c 45).
Qed.

(** X7. [replace_hyphens] returns a text without hyphen as it is, and any
    text as it is when the replacement is the hyphen itself; with the empty
    replacement it is the text with its hyphens deleted.  When the
    replacement holds no hyphen, the result holds none, and replacing again
    changes nothing. *)
Theorem replace_hyphens_leaves_no_hyphen (text replacement : str) :
  (45 ∉ text → replace_hyphens text replacement = text)
  ∧ replace_hyphens text [45] = text
  ∧ replace_hyphens text [] = filter (λ c, c ≠ 45) text
  ∧ (45 ∉ replacement →
     (45 ∉ replace_hyphens text replacement)
     ∧ replace_hyphens (replace_hyphens text replacement) replacement
       = replace_hyphens text replacement).
Proof.
  split_and!.
  - apply replace_hyphens_without.
  - induction text as [|c text IH]; [done|].
    rewrite replace_hyphens_cons, IH. by destruct (N.eqb_spec c 45) as [->|].
  - induction text as [|c text IH]; [done|].
    rewrite replace_hyphens_cons, IH. destruct (N.eqb_spec c 45) as [->|Hc].
    + by rewrite filter_cons_False by (by intros ?).
    + by rewrite filter_cons_True.
  - intros Hreplacement.
    assert (45 ∉ replace_hyphens text replacement) as Hnone.
    { induction text as [|c text IH]; [apply not_elem_of_nil|].
      rewrite replace_hyphens_cons, elem_of_app. intros [Hin|Hin]; [|done].
      destruct (N.eqb_spec c 45) as [->|Hc]; [done|].
      by apply list_elem_of_singleton in Hin. }
    split; [done|]. by apply replace_hyphens_without.
Qed.

(** ** Loading the stop words *)

Section Coverage.
Context `{Runtime}.

(** The words a file lists: on each line, the runs of non-whitespace
    characters before the first bar. *)
Definition listed (file : list str) (word : str) : Prop :=
  ∃ line, line ∈ file ∧ word ∈ split (before 124 line).

(** [adds W self self']: [self'] is [self] with the words of [W] added to
    its stop words, and nothing else changed. *)
Definition adds (W : str → Prop) (self self' : Normalizr) : Prop :=
  __language self' = __language self
  ∧ __characters_regexes self' = __characters_regexes self
  ∧ allocated self' = allocated self
  ∧ ∀ word, word ∈ __stop_words self' ↔ word ∈ __stop_words self ∨ W word.

Lemma Normalizr_eq self self' :
  __language self' = __language self →
  __characters_regexes self' = __characters_regexes self →
  allocated self' = allocated self →
  (∀ word, word ∈ __stop_words self' ↔ word ∈ __stop_words self) →
  self' = self.
Proof.
  destruct self, self'. simpl. intros -> -> -> Hwords. f_equal.
  by apply set_eq.
Qed.

Lemma for_each_adds {A} (xs : list A) (body : A → M unit)
    (W : A → str → Prop) :
  (∀ x self, ∃ self', body x self = (Return (), self') ∧ adds (W x) self self') →
  ∀ self, ∃ self', for_each xs body self = (Return (), self')
                   ∧ adds (λ word, ∃ x, x ∈ xs ∧ W x word) self self'.
Proof.
  intros Hbody. induction xs as [|x xs IH]; intros self.
  - exists self. split; [done|]. split_and!; [done..|].
    intros word. split; [by left|]. intros [|(x & []%elem_of_nil & _)]; done.
  - destruct (Hbody x self) as (self1 & Hrun1 & Hlang1 & Hcache1 & Halloc1 & Hwords1).
    destruct (IH self1) as (self2 & Hrun2 & Hlang2 & Hcache2 & Halloc2 & Hwords2).
    exists self2. split.
    + cbn [for_each]. unfold bind. by rewrite Hrun1.
    + split_and!; [congruence..|]. intros word.
      rewrite Hwords2, Hwords1. split.
      * intros [[?|?]|(x' & ? & ?)]; [by left|right..].
        -- exists x. split; [by left|done].
        -- exists x'. split; [by right|done].
      * intros [?|(x' & [->|?]%elem_of_cons & ?)]; [by left; left|by left; right|].
        right. by exists x'.
Qed.

Lemma add_stop_word_adds word self :
  ∃ self', add_stop_word word self = (Return (), self')
           ∧ adds (λ word', word' = word) self self'.
Proof.
  eexists. split; [done|]. split_and!; [done..|]. intros word'. simpl.
  rewrite elem_of_union, elem_of_singleton. done.
Qed.

(** X1. When the file of the language exists, [_load_stop_words] returns
    normally and adds to the stop words exactly the words the file lists:
    on each line the whitespace-separated words before the first bar, each
    as it stands (the call of strip changes none of them).  What follows a
    bar is not read, and the language, the cache of patterns and the words
    already in the set are left as they were. *)
Theorem load_stop_words_adds_listed (language : str) (file : list str)
    (self : Normalizr) :
  data_stop language = Some file →
  ∃ self', _load_stop_words language self = (Return (), self')
           ∧ __language self' = __language self
           ∧ __characters_regexes self' = __characters_regexes self
           ∧ allocated self' = allocated self
           ∧ ∀ word, word ∈ __stop_words self' ↔
                     word ∈ __stop_words self ∨ listed file word.
Proof.
  intros Hfile. unfold _load_stop_words. rewrite Hfile.
  destruct (for_each_adds file
    (λ line, match split_at 124 line with
             | [] => ret ()
             | field :: _ => for_each (split field)
                               (λ word, add_stop_word (strip word))
             end)
    (λ line word, word ∈ split (before 124 line))) with self
    as (self' & Hrun & Hlang & Hcache & Halloc & Hwords).
  - intros line self0. pose proof (split_at_from_head 124 [] line) as Hhead.
    fold (split_at 124 line) in Hhead.
    destruct (split_at 124 line) as [|field fields]; [done|].
    injection Hhead as ->. simpl.
    destruct (for_each_adds (split (before 124 line))
      (λ word, add_stop_word (strip word)) (λ word word', word' = strip word))
      with self0 as (self1 & Hrun1 & Hlang1 & Hcache1 & Halloc1 & Hwords1).
    { intros word self1. apply add_stop_word_adds. }
    exists self1. split; [done|]. split_and!; [done..|]. intros word.
    rewrite Hwords1. apply or_iff_compat_l.
    pose proof (split_words (before 124 line)) as Hsplit.
    rewrite Forall_forall in Hsplit. split.
    + intros (word' & Hin & ->). by rewrite strip_word by by apply Hsplit.
    + intros Hin. exists word. by rewrite strip_word by by apply Hsplit.
  - by exists self'.
Qed.

(** X2. Loading is idempotent: once the stop words of a language have been
    loaded, loading them again returns normally and leaves the instance
    exactly as it is. *)
Theorem load_stop_words_twice (language : str) (file : list str)
    (self self' : Normalizr) :
  data_stop language = Some file →
  _load_stop_words language self = (Return (), self') →
  _load_stop_words language self' = (Return (), self').
Proof.
  intros Hfile Hfirst.
  destruct (load_stop_words_adds_listed language file self Hfile)
    as (self1 & Hrun1 & _ & _ & _ & Hwords1).
  rewrite Hfirst in Hrun1. injection Hrun1 as <-.
  destruct (load_stop_words_adds_listed language file self' Hfile)
    as (self2 & Hrun2 & Hlang2 & Hcache2 & Halloc2 & Hwords2).
  rewrite Hrun2. f_equal. apply Normalizr_eq; [done..|].
  intros word. rewrite Hwords2, Hwords1. tauto.
Qed.

(** X4. Where the file of the language exists, deferring the load changes
    nothing a caller can see: the first call of [remove_stop_words] on the
    instance built without loading returns what the same call returns on
    the instance built with loading, and leaves the instance in the state
    of that one. *)
Theorem lazy_first_use_is_eager (language : str) (file : list str) :
  data_stop language = Some file →
  ∃ eager lazy,
    __init__ language false = Return eager
    ∧ __init__ language true = Return lazy
    ∧ ∀ text ignore_case,
        remove_stop_words text ignore_case lazy
        = remove_stop_words text ignore_case eager
        ∧ (remove_stop_words text ignore_case lazy).2 = eager.
Proof.
  intros Hfile. unfold __init__. cbn [negb].
  set (lazy := {| __language := language; __stop_words := ∅;
                  __characters_regexes := ∅; allocated := 0 |}).
  destruct (load_stop_words_adds_listed language file lazy Hfile)
    as (eager & Hload & Hlang & _).
  rewrite Hload. exists eager, lazy. split_and!; [done..|].
  intros text ignore_case.
  assert (remove_stop_words text ignore_case lazy
          = (Return (join (u " ")
               (filter (λ word, (if ignore_case then str_lower word else word)
                                ∉ __stop_words eager) (split_at 32 text))),
             eager)) as Hlazy.
  { unfold remove_stop_words, bind, get. cbn [__stop_words __language lazy].
    rewrite decide_True by done. by rewrite Hload. }
  rewrite Hlazy. split; [|done].
  unfold remove_stop_words, bind, get. destruct (decide _); [|done].
  rewrite Hlang. cbn [__language lazy].
  by rewrite (load_stop_words_twice language file lazy eager).
Qed.


(** ** Filtering twice, and the order of the characters *)

Lemma filter_twice {A} (P : A → Prop) `{!∀ x, Decision (P x)} (l : list A) :
  filter P (filter P l) = filter P l.
Proof. rewrite list_filter_filter. apply list_filter_iff. tauto. Qed.

(** X5. On an instance that has stop words, [remove_stop_words] loads
    nothing and leaves the instance as it is; it is idempotent, and what it
    returns has no stop word left: when the result is not empty, none of
    its tokens (lower-cased when the case is ignored) is in the set. *)
Theorem remove_stop_words_idempotent (text : str) (ignore_case : bool)
    (self : Normalizr) :
  __stop_words self ≠ ∅ →
  ∃ out,
    remove_stop_words text ignore_case self = (Return out, self)
    ∧ remove_stop_words out ignore_case self = (Return out, self)
    ∧ (out ≠ [] →
       ∀ token, token ∈ split_at 32 out →
                (if ignore_case then str_lower token else token)
                ∉ __stop_words self).
Proof.
  intros Hloaded. unfold remove_stop_words, bind, get, ret.
  rewrite decide_False by done. change (u " ") with [32].
  set (P := λ word, (if ignore_case then str_lower word else word)
                    ∉ __stop_words self).
  set (kept := filter P (split_at 32 text)).
  exists (join [32] kept). split; [done|].
  destruct (decide (kept = [])) as [Hnil|Hkept].
  - rewrite Hnil. split; [|done]. simpl. unfold split_at. simpl.
    rewrite filter_cons. by destruct (decide (P [])).
  - assert (split_at 32 (join [32] kept) = kept) as Hsplit.
    { apply split_at_join; [done|].
      pose proof (split_at_from_fields 32 [] text (not_elem_of_nil _)) as Hfields.
      rewrite Forall_forall in Hfields |- *. intros token Htoken.
      eapply Hfields, elem_of_sublist; [done|apply sublist_filter]. }
    rewrite Hsplit. split.
    + unfold kept. by rewrite filter_twice.
    + intros _ token Htoken. unfold kept in Htoken.
      by apply list_elem_of_filter in Htoken as [? _].
Qed.

(** X9. [replace_characters] does not depend on the order in which the
    characters are given: two arguments that are permutations of each other
    give, from the same state of the instance, the same result and the same
    state, with the same key in the cache. *)
Theorem replace_characters_order (text characters1 characters2 replacement : str)
    (self : Normalizr) :
  characters1 ≡ₚ characters2 →
  replace_characters text characters1 replacement self
  = replace_characters text characters2 replacement self.
Proof.
  intros Hperm. unfold replace_characters.
  destruct characters1 as [|c1 cs1], characters2 as [|c2 cs2].
  - done.
  - by apply Permutation_nil_l in Hperm.
  - by apply Permutation_nil_r in Hperm.
  - unfold bind, characters_regex.
    by rewrite (proj2 (sorted_eq_iff _ _) Hperm).
Qed.


(** ** Punctuation *)

Lemma sorted_idempotent cs : sorted (sorted cs) = sorted cs.
Proof. apply sorted_eq_iff, sorted_permutation. Qed.

Lemma StronglySorted_filter {A} (R : relation A) (P : A → Prop)
    `{!∀ x, Decision (P x)} (l : list A) :
  StronglySorted R l → StronglySorted R (filter P l).
Proof.
  induction 1 as [|x l Hl IH Hx]; [constructor|].
  rewrite filter_cons. destruct (decide (P x)); [|done].
  constructor; [done|]. rewrite Forall_forall in Hx |- *.
  intros y [_ Hy]%list_elem_of_filter. by apply Hx.
Qed.

Lemma string_punctuation_sorted : StronglySorted N.le string_punctuation.
Proof. by apply (bool_decide_unpack _). Qed.

Lemma string_punctuation_NoDup : NoDup string_punctuation.
Proof. by apply (bool_decide_unpack _). Qed.

(** The punctuation characters that are not excluded, in the order of
    their code points: the string [replace_characters] makes of [punct]. *)
Lemma sorted_punct (excluded : gset char) :
  sorted (elements (__punctuation ∖ excluded))
  = filter (λ c, c ∉ excluded) string_punctuation.
Proof.
  apply (StronglySorted_unique N.le).
  - apply StronglySorted_merge_sort; apply _.
  - apply StronglySorted_filter, string_punctuation_sorted.
  - rewrite sorted_permutation. apply NoDup_Permutation.
    + apply NoDup_elements.
    + apply NoDup_filter, string_punctuation_NoDup.
    + intros c. unfold __punctuation.
      rewrite elem_of_elements, elem_of_difference, elem_of_list_to_set,
        list_elem_of_filter. tauto.
Qed.

(** X10. [replace_punctuation] is [replace_characters] on the punctuation
    characters that are not excluded, taken in the order of their code
    points: the order in which the set difference is iterated plays no part.
    When every punctuation character is excluded it returns the text and
    leaves the instance as it is; otherwise, after the call, the cache holds
    a pattern under that string, and every other key is as before. *)
Theorem replace_punctuation_key (text replacement : str)
    (excluded : option (gset char)) (self : Normalizr) :
  let key := filter (λ c, c ∉ default ∅ excluded) string_punctuation in
  let after := (replace_punctuation text excluded replacement self).2 in
  replace_punctuation text excluded replacement self
  = replace_characters text key replacement self
  ∧ (key = [] →
     replace_punctuation text excluded replacement self = (Return text, self))
  ∧ (key ≠ [] →
     is_Some (__characters_regexes after !! key)
     ∧ ∀ key', key' ≠ key →
               __characters_regexes after !! key'
               = __characters_regexes self !! key').
Proof.
  intros key after.
  assert (sorted (elements (__punctuation ∖ default ∅ excluded)) = key) as Hkey
    by apply sorted_punct.
  assert (sorted key = key) as Hsorted.
  { rewrite <- Hkey. apply sorted_idempotent. }
  assert (replace_punctuation text excluded replacement self
          = replace_characters text key replacement self) as Hsame.
  { unfold replace_punctuation.
    replace (match excluded with None => ∅ | Some excluded0 => excluded0 end)
      with (default (∅ : gset char) excluded) by by destruct excluded.
    apply replace_characters_order. apply sorted_eq_iff. by rewrite Hkey. }
  split_and!; [done|by intros Hnil; rewrite Hsame, Hnil|].
  intros Hne. subst after. rewrite Hsame. unfold replace_characters.
  destruct key as [|c key'] eqn:Hk; [done|]. rewrite <- Hk in *. unfold bind.
  destruct (characters_regex_returns key self) as (r & self' & Hrun).
  pose proof Hrun as Hstored.
  apply characters_regex_stored in Hstored as (Hr & _).
  rewrite Hsorted in Hr. rewrite Hrun. cbn [snd lift]. split; [by exists r|].
  intros key'' Hother.
  destruct (__characters_regexes self !! sorted key) as [r'|] eqn:Hlookup.
  - rewrite (characters_regex_hit _ r') in Hrun by done. by injection Hrun as _ <-.
  - rewrite characters_regex_miss in Hrun by done. injection Hrun as _ <-.
    cbn [__characters_regexes]. rewrite Hsorted. by rewrite lookup_insert_ne.
Qed.


(** ** Invariants of an instance *)

(** Where a method can leave the instance: where it was, or where a load
    of the stop words or a lookup of a non-empty class leaves it. *)
Lemma remove_stop_words_state text ignore_case self :
  (remove_stop_words text ignore_case self).2 = self
  ∨ (remove_stop_words text ignore_case self).2
    = (_load_stop_words (__language self) self).2.
Proof.
  unfold remove_stop_words, bind, get. destruct (decide _); [|by left].
  right. by destruct (_load_stop_words _ _) as [[[]|exception] self'].
Qed.

Lemma replace_characters_state text characters replacement self :
  (replace_characters text characters replacement self).2 = self
  ∨ characters ≠ []
    ∧ (replace_characters text characters replacement self).2
      = (characters_regex characters self).2.
Proof.
  destruct characters as [|c cs]; [by left|]. right. split; [done|].
  unfold replace_characters, bind, lift.
  by destruct (characters_regex_returns (c :: cs) self) as (r & self' & ->).
Qed.

Section Invariant.
Variable P : Normalizr → Prop.
Hypothesis load_keeps :
  ∀ language self, P self → P (_load_stop_words language self).2.
Hypothesis lookup_keeps :
  ∀ characters self,
    characters ≠ [] → P self → P (characters_regex characters self).2.

Lemma remove_stop_words_keeps text ignore_case self :
  P self → P (remove_stop_words text ignore_case self).2.
Proof.
  intros HP. destruct (remove_stop_words_state text ignore_case self) as [->| ->];
    [done|by apply load_keeps].
Qed.

Lemma replace_characters_keeps text characters replacement self :
  P self → P (replace_characters text characters replacement self).2.
Proof.
  intros HP.
  destruct (replace_characters_state text characters replacement self)
    as [->|[? ->]]; [done|by apply lookup_keeps].
Qed.

Lemma replace_punctuation_keeps text excluded replacement self :
  P self → P (replace_punctuation text excluded replacement self).2.
Proof. apply replace_characters_keeps. Qed.

Lemma call_keeps m kwargs f text self :
  call m kwargs = Some f → P self → P (f text self).2.
Proof.
  unfold call. destruct (negb _); [by intros [= <-]|].
  destruct m; intros Hcall HP; simplify_option_eq; repeat case_match;
    simplify_option_eq; try done;
    auto using remove_stop_words_keeps, replace_characters_keeps,
      replace_punctuation_keeps.
Qed.

Lemma call_helper_keeps h kwargs f text self :
  h ≠ Init → call_helper h kwargs = Some f → P self → P ((f text).1 self).2.
Proof.
  intros Hh. unfold call_helper. destruct (negb _); [by intros [= <-]|].
  destruct h; try done; intros [= <-] HP; simpl; [by apply load_keeps|done].
Qed.

Lemma call_init_keeps kwargs f text self :
  (∀ language lazy_load self, P self → P (init_body language lazy_load self).2) →
  call_helper Init kwargs = Some f → P self → P ((f text).1 self).2.
Proof.
  intros Hinit. unfold call_helper. destruct (negb _); [by intros [= <-]|].
  destruct (kwargs !! "logger_level"%string) as [[]|]; try done;
    intros [= <-] HP; by apply Hinit.
Qed.

(** The invariant holds after a run, where the run is followed, when no
    step re-runs the constructor or the constructor keeps it too. *)
Lemma apply_normalizations_with_keeps nested steps text self self' :
  (∀ text self self', state_of (nested text self) = Some self' → P self → P self') →
  no_init steps
  ∨ (∀ language lazy_load self, P self → P (init_body language lazy_load self).2) →
  state_of (apply_normalizations_with nested steps text self) = Some self' →
  P self → P self'.
Proof.
  intros Hnested Hinit. revert text self.
  induction steps as [|[name kwargs] steps IH]; intros text self;
    cbn [apply_normalizations_with].
  - by intros [= <-].
  - assert (no_init steps
            ∨ (∀ language lazy_load self,
                 P self → P (init_body language lazy_load self).2)) as Hrest.
    { destruct Hinit as [Hno|?]; [left|by right]. by apply Forall_cons in Hno as [_ ?]. }
    specialize (IH Hrest).
    destruct (getattr name) as [[m|h| |]|] eqn:Hname;
      [| |by intros [= <-]|done|by intros [= <-]].
    + destruct (call m kwargs) as [f|] eqn:Hcall; [|done].
      intros Hrun HP. pose proof (call_keeps _ _ _ text self Hcall HP) as Hstep.
      destruct (f text self) as [[text'|e] self1]; simpl in Hstep.
      * by eapply IH.
      * by injection Hrun as <-.
    + destruct h.
      * destruct (call_helper Init kwargs) as [f|] eqn:Hcall; [|done].
        intros Hrun HP.
        assert (P ((f text).1 self).2) as Hstep.
        { destruct Hinit as [Hno|Hkeeps]; [|by eapply call_init_keeps].
          apply Forall_cons in Hno as [Hno _]. by destruct Hno. }
        destruct ((f text).1 self) as [[[]|e] self1]; by injection Hrun as <-.
      * destruct (call_helper GetLogger kwargs) as [f|] eqn:Hcall; [|done].
        intros Hrun HP.
        pose proof (call_helper_keeps GetLogger kwargs f text self ltac:(done) Hcall HP)
          as Hstep.
        destruct ((f text).1 self) as [[[]|e] self1]; by injection Hrun as <-.
      * destruct (call_helper LoadStopWords kwargs) as [f|] eqn:Hcall; [|done].
        intros Hrun HP.
        pose proof (call_helper_keeps LoadStopWords kwargs f text self ltac:(done) Hcall HP)
          as Hstep.
        destruct ((f text).1 self) as [[[]|e] self1]; by injection Hrun as <-.
      * destruct (call_helper ParseNormalizations kwargs) as [f|] eqn:Hcall; [|done].
        intros Hrun HP.
        pose proof (call_helper_keeps ParseNormalizations kwargs f text self ltac:(done) Hcall HP)
          as Hstep.
        destruct ((f text).1 self) as [[[]|e] self1]; by injection Hrun as <-.
      * destruct (negb _); [by intros [= <-]|].
        destruct (from_option truth false _); [done|].
        pose proof (Hnested text self) as Hinner.
        destruct (nested text self) as [[text'|e] self1|v self1 rest|];
          simpl in Hinner; [|by intros [= <-] ?; apply Hinner..|done].
        intros Hrun HP. eapply IH; [done|]. by apply Hinner.
Qed.

Lemma normalize_outcome_keeps text normalizations self self' :
  Forall (λ step, getattr (name_of step) ≠ Some (Helper Init))
         (or_default normalizations)
  ∨ (∀ language lazy_load self, P self → P (init_body language lazy_load self).2) →
  state_of (normalize_outcome text normalizations self) = Some self' →
  P self → P self'.
Proof.
  intros Hinit. apply apply_normalizations_with_keeps.
  - intros text' self0 self1. apply apply_normalizations_with_keeps; [done|].
    left. apply default_steps_no_init.
  - destruct Hinit as [Hno|?]; [left|by right]. by apply parse_no_init.
Qed.

Lemma normalize_state text normalizations self r self' :
  normalize text normalizations self = Some (r, self') →
  state_of (normalize_outcome text normalizations self) = Some self'.
Proof.
  unfold normalize.
  destruct (normalize_outcome text normalizations self); [|done..].
  by intros [= _ <-].
Qed.

End Invariant.






(** The stop words are words: none is empty, none holds whitespace. *)
Definition stop_words_ok (self : Normalizr) : Prop :=
  ∀ word, word ∈ __stop_words self → is_word word.

Lemma characters_regex_frame characters self :
  let self' := (characters_regex characters self).2 in
  __stop_words self' = __stop_words self ∧ __language self' = __language self.
Proof.
  destruct (characters_regex_returns characters self) as (r & self' & Hrun).
  rewrite Hrun. by apply characters_regex_stored in Hrun as (_ & _ & ? & ?).
Qed.

Lemma load_stop_words_ok language self :
  stop_words_ok self → stop_words_ok (_load_stop_words language self).2.
Proof.
  intros Hok. destruct (data_stop language) as [file|] eqn:Hfile.
  - destruct (load_stop_words_adds_listed language file self Hfile)
      as (self' & -> & _ & _ & _ & Hwords).
    intros word [?|(line & _ & Hword)]%Hwords; [by apply Hok|].
    pose proof (split_words (before 124 line)) as Hsplit.
    rewrite Forall_forall in Hsplit. by apply Hsplit.
  - by rewrite load_missing.
Qed.

Lemma characters_regex_stop_words_ok characters self :
  stop_words_ok self → stop_words_ok (characters_regex characters self).2.
Proof.
  destruct (characters_regex_frame characters self) as [Hwords _].
  unfold stop_words_ok. by rewrite Hwords.
Qed.

(** X12. The stop words of every instance are words: from the constructor on
    and after any transformation or run of [normalize], no stop word is
    empty and none holds a whitespace character.  An empty token of a text
    (between two spaces in a row) is thus never a stop word. *)
Theorem stop_words_are_words :
  (∀ language lazy_load self,
     __init__ language lazy_load = Return self → stop_words_ok self)
  ∧ (∀ m kwargs f text self,
       call m kwargs = Some f → stop_words_ok self →
       stop_words_ok (f text self).2)
  ∧ (∀ text normalizations self r self',
       normalize text normalizations self = Some (r, self') →
       stop_words_ok self → stop_words_ok self')
  ∧ (∀ self, stop_words_ok self → [] ∉ __stop_words self).
Proof.
  split_and!.
  - intros language lazy_load self. unfold __init__.
    set (self0 := {| __language := language; __stop_words := ∅;
                     __characters_regexes := ∅; allocated := 0 |}).
    assert (stop_words_ok self0) as Hok by by intros word ?%not_elem_of_empty.
    destruct lazy_load; cbn [negb]; [by intros [= <-]|].
    pose proof (load_stop_words_ok language self0 Hok) as Hloaded.
    destruct (_load_stop_words language self0) as [[[]|e] self1]; [|done].
    by intros [= <-].
  - apply call_keeps;
      auto using load_stop_words_ok, characters_regex_stop_words_ok.
  - intros text normalizations self r self' Hrun%normalize_state. revert Hrun.
    apply normalize_outcome_keeps;
      auto using load_stop_words_ok, characters_regex_stop_words_ok.
    right. intros language lazy_load self0 _. unfold init_body.
    destruct lazy_load; cbn [negb]; [|apply load_stop_words_ok];
      by intros word ?%not_elem_of_empty.
  - intros self Hok Hempty. by destruct (Hok [] Hempty).
Qed.


(** ** Runs of steps *)

(** X14. Running a list of steps is running its first part and then, on the
    text and the instance this leaves, its second part.  When the first
    part raises, the call ends there with that exception and the state it
    left, and the second part does not run.  (The two parts are not empty:
    an empty list stands for the default steps.) *)
Theorem normalize_app (text : str) (steps1 steps2 : list normalization)
    (self : Normalizr) :
  steps1 ≠ [] → steps2 ≠ [] →
  normalize text (Some (steps1 ++ steps2)) self
  = match normalize text (Some steps1) self with
    | Some (Return text', self') => normalize text' (Some steps2) self'
    | outcome => outcome
    end.
Proof.
  intros Hne1 Hne2. unfold normalize, normalize_outcome.
  replace (or_default (Some (steps1 ++ steps2))) with (steps1 ++ steps2)
    by by destruct steps1.
  replace (or_default (Some steps1)) with steps1 by by destruct steps1.
  replace (or_default (Some steps2)) with steps2 by by destruct steps2.
  unfold apply_normalizations, _parse_normalizations.
  rewrite fmap_app, apply_normalizations_with_app.
  by destruct (apply_normalizations_with default_run _ text self)
    as [[text'|e] self'|v self' rest|].
Qed.

(** X15. A step that names a transformation and passes it an option the
    method does not declare raises TypeError before the method runs: the
    instance is left as it is and the steps after it do not run.  So does a
    replace_characters step without its [characters] option, given by its
    name alone or with other options. *)
Theorem undeclared_option_raises (text : str) (name : string) (m : method)
    (kwargs : gmap string value) (rest : list normalization) (self : Normalizr) :
  getattr name = Some (Transformation m) →
  (∃ option, is_Some (kwargs !! option) ∧ option ∉ parameters m)
  ∨ (m = ReplaceCharacters ∧ kwargs !! "characters"%string = None) →
  normalize text (Some (Pair name kwargs :: rest)) self
  = Some (Raise TypeError, self)
  ∧ (kwargs = ∅ →
     normalize text (Some (Name name :: rest)) self
     = Some (Raise TypeError, self)).
Proof.
  intros Hname Hkwargs.
  assert (call m kwargs = Some (λ _, raise TypeError)) as Hcall.
  { unfold call. destruct (bool_decide _) eqn:Hdeclared; [|done]. cbn [negb].
    apply bool_decide_eq_true in Hdeclared.
    destruct Hkwargs as [(option & [v Hv] & Hnot)|[-> Hmissing]].
    - destruct Hnot. by apply (Hdeclared option v).
    - by rewrite Hmissing. }
  split.
  - unfold normalize, normalize_outcome, apply_normalizations.
    cbn [or_default _parse_normalizations fmap list_fmap
         apply_normalizations_with]. by rewrite Hname, Hcall.
  - intros ->. unfold normalize, normalize_outcome, apply_normalizations.
    cbn [or_default _parse_normalizations fmap list_fmap
         apply_normalizations_with]. by rewrite Hname, Hcall.
Qed.

(** ** Symbols *)

Definition forms : list str := [u "NFC"; u "NFKC"; u "NFD"; u "NFKD"].

Lemma parse_form_None format : parse_form format = None ↔ format ∉ forms.
Proof.
  unfold parse_form, forms. rewrite !not_elem_of_cons.
  repeat case_decide; split; intros Hforms; try done;
    try (by destruct Hforms as (? & ? & ? & ? & ?));
    split_and!; try done; apply not_elem_of_nil.
Qed.

(** X8. [replace_symbols] raises ValueError exactly when the text is not
    empty and [format] is none of NFC, NFKC, NFD and NFKD; the empty text
    with such a format is returned as it is.  With one of the four forms,
    every character of what it returns comes from the replacement, or is a
    character of the normalized text whose category is none of Mn, Sc, Sk,
    Sm and So or which is excluded; with the empty replacement the result
    is the normalized text with the other characters deleted, and a
    normalized text that has none of them is returned as it is. *)
Theorem replace_symbols_outcome (text format replacement : str)
    (excluded : gset char) :
  (replace_symbols text format excluded replacement = Raise ValueError
   ↔ text ≠ [] ∧ format ∉ forms)
  ∧ (format ∉ forms →
     replace_symbols [] format excluded replacement = Return [])
  ∧ ∀ f, parse_form format = Some f →
      let kept := λ c, unicodedata_category c ∉ categories ∨ c ∈ excluded in
      let normalized := unicodedata_normalize f text in
      ∃ out,
        replace_symbols text format excluded replacement = Return out
        ∧ Forall (λ c, c ∈ replacement ∨ c ∈ normalized ∧ kept c) out
        ∧ (replacement = [] → out = filter kept normalized)
        ∧ (Forall kept normalized → out = normalized).
Proof.
  split_and!.
  - rewrite <- parse_form_None. unfold replace_symbols, normalize_text.
    destruct (parse_form format); [by split; [|intros [_ ?]]|].
    destruct text; split; try done. by intros [? _].
  - intros Hformat%parse_form_None. unfold replace_symbols, normalize_text.
    by rewrite Hformat.
  - intros f Hf kept normalized. unfold replace_symbols, normalize_text.
    rewrite Hf. fold normalized. eexists. split; [done|].
    induction normalized as [|c cs (IH1 & IH2 & IH3)]; [done|].
    cbn [flat_map]. split_and!.
    + apply Forall_app. split.
      * case_decide as Hc.
        -- constructor; [|constructor]. right. split; [by left|done].
        -- apply Forall_forall. by left.
      * eapply Forall_impl; [done|]. simpl.
        intros c' [?|[? ?]]; [by left|right]. split; [by right|done].
    + intros ->. rewrite filter_cons. unfold kept at 1.
      case_decide; simpl; by rewrite IH2.
    + intros [Hc Hcs]%Forall_cons. rewrite decide_True by done.
      simpl. by rewrite IH3.
Qed.

End Coverage.

(** ** The further properties on the sample runtime *)

Section CoverageEvaluation.
#[local] Existing Instance Sample.runtime.

(** [fresh] after its stop words were loaded; also the instance
    [Normalizr(language='en')] returns. *)
Definition loaded : Normalizr :=
  {| __language := u "en";
     __stop_words :=
       list_to_set [u "a"; u "an"; u "the"; u "and"; u "of"; u "to"; u "in"];
     __characters_regexes := ∅;
     allocated := 0 |}.

Example loaded_constructed : __init__ (u "en") false = Return loaded.
Proof. by vm_compute. Qed.

Example hyphens_replaced :
  replace_hyphens (u "well-known fact") (u " ") = u "well known fact".
Proof. reflexivity. Qed.

Example symbols_replaced :
  replace_symbols (u "a+b = $5") (u "NFKD") ∅ [] = Return (u "ab  5").
Proof. by vm_compute. Qed.

Example symbols_unknown_form :
  replace_symbols (u "a+b") (u "nfkd") ∅ [] = Raise ValueError.
Proof. by vm_compute. Qed.

Example symbols_unknown_form_empty_text :
  replace_symbols [] (u "nfkd") ∅ [] = Return [].
Proof. by vm_compute. Qed.

Example load_as_a_step :
  normalize_outcome (u "en") (Some [Name "_load_stop_words"]) fresh
  = NotText NoneValue loaded [].
Proof. by vm_compute. Qed.

Example generator_as_a_step :
  normalize_outcome (u "a b") (Some [Name "_parse_normalizations";
                                     Name "remove_extra_whitespaces"]) fresh
  = NotText Generator fresh [("remove_extra_whitespaces"%string, ∅)].
Proof. by vm_compute. Qed.

Example inherited_as_a_step :
  normalize_outcome (u "a b") (Some [Name "__class__"]) fresh = Beyond.
Proof. by vm_compute. Qed.

(** X1, loading: the file of en on [fresh]. *)
Lemma load_stop_words_adds_listed_witness :
  data_stop (u "en") = Some Sample.stop_en
  ∧ ∃ self', _load_stop_words (u "en") fresh = (Return (), self')
             ∧ __language self' = __language fresh
             ∧ __characters_regexes self' = __characters_regexes fresh
             ∧ allocated self' = allocated fresh
             ∧ ∀ word, word ∈ __stop_words self' ↔
                       word ∈ __stop_words fresh ∨ listed Sample.stop_en word.
Proof.
  split.
  - reflexivity.
  - apply (load_stop_words_adds_listed (u "en") Sample.stop_en fresh).
    reflexivity.
Defined.

(** X2, loading twice: [loaded] is what the first load leaves. *)
Lemma load_stop_words_twice_witness :
  data_stop (u "en") = Some Sample.stop_en
  ∧ _load_stop_words (u "en") fresh = (Return (), loaded)
  ∧ _load_stop_words (u "en") loaded = (Return (), loaded).
Proof.
  split; [|split].
  - reflexivity.
  - vm_compute. reflexivity.
  - apply (load_stop_words_twice (u "en") Sample.stop_en fresh loaded).
    + reflexivity.
    + vm_compute. reflexivity.
Defined.

(** X4, deferred load: the language en. *)
Lemma lazy_first_use_is_eager_witness :
  data_stop (u "en") = Some Sample.stop_en
  ∧ ∃ eager lazy,
      __init__ (u "en") false = Return eager
      ∧ __init__ (u "en") true = Return lazy
      ∧ ∀ text ignore_case,
          remove_stop_words text ignore_case lazy
          = remove_stop_words text ignore_case eager
          ∧ (remove_stop_words text ignore_case lazy).2 = eager.
Proof.
  split.
  - reflexivity.
  - apply (lazy_first_use_is_eager (u "en") Sample.stop_en). reflexivity.
Defined.

(** X5, filtering twice: a text on [loaded]. *)
Lemma remove_stop_words_idempotent_witness :
  __stop_words loaded ≠ ∅
  ∧ ∃ out,
      remove_stop_words (u "The cat and  the hat") true loaded = (Return out, loaded)
      ∧ remove_stop_words out true loaded = (Return out, loaded)
      ∧ (out ≠ [] →
         ∀ token, token ∈ split_at 32 out →
                  str_lower token ∉ __stop_words loaded).
Proof.
  assert (__stop_words loaded ≠ ∅) as Hloaded.
  { intros Hempty. apply (f_equal size) in Hempty. vm_compute in Hempty.
    discriminate. }
  split.
  - exact Hloaded.
  - apply (remove_stop_words_idempotent (u "The cat and  the hat") true loaded).
    exact Hloaded.
Defined.

(** X9, order of the characters: abc and cba on [fresh]. *)
Lemma replace_characters_order_witness :
  u "abc" ≡ₚ u "cba"
  ∧ replace_characters (u "a,b;c") (u "abc") (u "-") fresh
    = replace_characters (u "a,b;c") (u "cba") (u "-") fresh.
Proof.
  assert (u "abc" ≡ₚ u "cba") as Hperm.
  { apply sorted_eq_iff. vm_compute. reflexivity. }
  split.
  - exact Hperm.
  - apply (replace_characters_order (u "a,b;c") (u "abc") (u "cba")). exact Hperm.
Defined.

(** X14, runs of steps: two steps, one after the other. *)
Lemma normalize_app_witness :
  normalize (u " a-b ")
    (Some ([Name "remove_extra_whitespaces"] ++ [Name "replace_hyphens"])) fresh
  = match normalize (u " a-b ") (Some [Name "remove_extra_whitespaces"]) fresh with
    | Some (Return text', self') =>
        normalize text' (Some [Name "replace_hyphens"]) self'
    | outcome => outcome
    end.
Proof.
  apply (normalize_app (u " a-b ") [Name "remove_extra_whitespaces"]
           [Name "replace_hyphens"] fresh).
  - discriminate.
  - discriminate.
Defined.

(** X15, undeclared option: replace_hyphens with a misspelt option. *)
Lemma undeclared_option_raises_witness :
  getattr "replace_hyphens" = Some (Transformation ReplaceHyphens)
  ∧ normalize (u "a-b")
      (Some [Pair "replace_hyphens" {[ "replacemen"%string := VStr (u "+") ]};
             Name "remove_stop_words"]) fresh
    = Some (Raise TypeError, fresh).
Proof.
  split.
  - vm_compute. reflexivity.
  - refine (proj1 (undeclared_option_raises (u "a-b") "replace_hyphens"
                     ReplaceHyphens {[ "replacemen"%string := VStr (u "+") ]}
                     [Name "remove_stop_words"] fresh _ _)).
    + vm_compute. reflexivity.
    + left. exists "replacemen"%string. split.
      * exists (VStr (u "+")). vm_compute. reflexivity.
      * apply not_elem_of_cons. split; [discriminate|apply not_elem_of_nil].
Defined.

End CoverageEvaluation.
